(** * Loan ledger of astrbot_plugin_fishing: shallow embedding and properties

    The development follows the three source layers:
    - [core/domain/loan_models.py]            (module [Loan]),
    - [core/repositories/sqlite_loan_repo.py] (module [SqliteLoanRepository]),
    - [core/services/loan_service.py]         (module [LoanService]).

    Amounts and identifiers of rows are Python integers ([Z]); account
    identifiers are strings; the two SQL tables are finite maps keyed by their
    primary keys; [interest_rate] and the configured ratios are binary64
    floats, computed with the kernel's IEEE 754 arithmetic. *)

From Stdlib Require Import ZArith Floats.
From stdpp Require Import gmap strings list fin_maps sorting.

Set Warnings "-inexact-float".
Local Open Scope Z_scope.

(** ** Python numerics *)

(** [int * float]: the integer operand is first converted to the nearest
    double (ties to even); integers beyond the double range become an
    infinity here, where Python raises [OverflowError] (see [py_int]). *)
Definition float_of_int (z : Z) : float :=
  SF2Prim (binary_normalize prec emax z 0 false).

(** [int(x)] on a float: truncation toward zero; [None] stands for the
    exception Python raises on an infinity or a NaN. *)
Definition py_int (x : float) : option Z :=
  match Prim2SF x with
  | S754_zero _ => Some 0
  | S754_finite s m e =>
      let a := if 0 <=? e then Z.shiftl (Z.pos m) e else Z.shiftr (Z.pos m) (- e) in
      Some (if s then - a else a)
  | S754_infinity _ | S754_nan => None
  end.

(** The exact value of a finite double, scaled by [2^1074] so that it is an
    integer: every finite double is an integer multiple of [2^-1074].  The
    scaling preserves order, equality and negation, which is all that the
    comparison of sort keys needs.  An infinity or a NaN, on which Python's
    comparisons are no order, is given 0; no loan made by the service has
    such a rate, since [int()] raises on the amount due. *)
Definition float_scaled (x : float) : Z :=
  match Prim2SF x with
  | S754_finite s m e =>
      let a := Z.shiftl (Z.pos m) (e + 1074) in if s then - a else a
  | _ => 0
  end.


Definition sumZ (l : list Z) : Z := foldr Z.add 0 l.

(** ** Stable sorting

    [list.sort(key=...)], [sorted(..., reverse=True)] and the [ORDER BY] of
    the queries are stable sorts by a total preorder on keys, so their result
    is determined by the comparison; they are modelled by insertion from the
    right, which keeps equal elements in their original order. *)
Section stable_sort.
Context {A : Type} (leb : A → A → bool).

Fixpoint insert_sorted (x : A) (l : list A) : list A :=
    match l with
    | [] => [x]
    | y :: l' => if leb x y then x :: l else y :: insert_sorted x l'
    end.

Definition stable_sort (l : list A) : list A := foldr insert_sorted [] l.
End stable_sort.

(** ** Domain model: [loan_models.py] *)

(** The four values of the [status] column. *)
Inductive Status := pending | active | overdue | paid.

Global Instance Status_eq_dec : EqDecision Status.
Proof. solve_decision. Defined.

Definition SYSTEM : string := "SYSTEM".

(** One row of [loans] without its key [loan_id]; [created_at] and
    [updated_at] are bookkeeping that no decision reads, and are left out.
    Times are integers (seconds). *)
Record Loan := mkLoan {
  lender_id : string;
  borrower_id : string;
  principal : Z;
  interest_rate : float;
  borrowed_at : Z;
  due_amount : Z;
  repaid_amount : Z;
  status : Status;
  due_date : option Z
}.

Module Loan.

Definition calculate_due_amount (self : Loan) : option Z :=
    py_int (float_of_int (principal self) * (1 + interest_rate self))%float.

Definition remaining_amount (self : Loan) : Z :=
    Z.max 0 (due_amount self - repaid_amount self).

Definition is_paid_off (self : Loan) : bool :=
    due_amount self <=? repaid_amount self.

Definition is_system_loan (self : Loan) : bool :=
    bool_decide (lender_id self = SYSTEM).

Definition is_overdue (now : Z) (self : Loan) : bool :=
    if bool_decide (lender_id self ≠ SYSTEM) then false
    else match due_date self with
         | None => false
         | Some d =>
             if bool_decide (status self = paid) then false else d <? now
         end.

  (** the two [UPDATE loans SET ...] shapes of the code *)
Definition set_repayment (repaid : Z) (st : Status) (self : Loan) : Loan :=
    mkLoan (lender_id self) (borrower_id self) (principal self)
           (interest_rate self) (borrowed_at self) (due_amount self)
           repaid st (due_date self).

Definition set_active_at (now : Z) (self : Loan) : Loan :=
    mkLoan (lender_id self) (borrower_id self) (principal self)
           (interest_rate self) now (due_amount self)
           (repaid_amount self) active (due_date self).

End Loan.

(** A fetched row: the key together with the row. *)
Abbreviation Row := (Z * Loan)%type.

(** The optional [status = ?] filter of the queries. *)
Definition status_is (st : option Status) (l : Loan) : Prop :=
  match st with Some s => status l = s | None => True end.

Global Instance status_is_dec st l : Decision (status_is st l).
Proof. destruct st; simpl; apply _. Defined.

(** [due_date IS NOT NULL AND due_date < now] *)
Definition past_due (now : Z) (l : Loan) : Prop :=
  match due_date l with Some d => d < now | None => False end.

Global Instance past_due_dec now l : Decision (past_due now l).
Proof. unfold past_due; destruct (due_date l); apply _. Defined.

(** ** Accounts *)

(** The columns of [users] that the loan code reads and writes. *)
Record User := mkUser { coins : Z; max_coins : Z }.

(** Both tables. *)
Record DB := mkDB {
  users : gmap string User;
  loans : gmap Z Loan
}.

(** Modelled from the spec: [sqlite_user_repo.py] is not among the sources.
    The account ledger is a record store with primary-key lookup:
    [get_by_id] reads the row, [update] writes back the record it is given. *)
Module SqliteUserRepository.

Definition get_by_id (us : gmap string User) (user_id : string) : option User :=
    us !! user_id.

Definition update (us : gmap string User) (user_id : string) (u : User)
    : gmap string User :=
    <[user_id := u]> us.

End SqliteUserRepository.

(** ** Repository: [sqlite_loan_repo.py] *)

Module SqliteLoanRepository.

  (** Rows of the table in ascending [loan_id], the order of a table scan. *)
Definition table_rows (ls : gmap Z Loan) : list Row :=
    stable_sort (λ a b : Row, a.1 <=? b.1) (map_to_list ls).

Definition order_by_borrowed_at_asc (rows : list Row) : list Row :=
    stable_sort (λ a b : Row, borrowed_at a.2 <=? borrowed_at b.2) rows.

Definition order_by_borrowed_at_desc (rows : list Row) : list Row :=
    stable_sort (λ a b : Row, borrowed_at b.2 <=? borrowed_at a.2) rows.

  (** [AUTOINCREMENT]: one more than the largest key in use. *)
Definition lastrowid (ls : gmap Z Loan) : Z :=
    1 + foldr Z.max 0 ((map_to_list ls).*1).

Definition create_loan (ls : gmap Z Loan) (loan : Loan) : gmap Z Loan * Z :=
    let loan_id := lastrowid ls in (<[loan_id := loan]> ls, loan_id).

Definition get_loan_by_id (ls : gmap Z Loan) (loan_id : Z) : option Loan :=
    ls !! loan_id.

Definition get_active_loans_between_users
      (ls : gmap Z Loan) (lender borrower : string) : list Row :=
    order_by_borrowed_at_desc
      (filter (λ r : Row, lender_id r.2 = lender ∧ borrower_id r.2 = borrower
                          ∧ status r.2 = active)
              (table_rows ls)).

  (** [status] is the optional filter; Python tests it for truth, and every
      status value is a non-empty string. *)
Definition get_loans_by_lender
      (ls : gmap Z Loan) (lender : string) (st : option Status) : list Row :=
    order_by_borrowed_at_desc
      (filter (λ r : Row, lender_id r.2 = lender ∧ status_is st r.2)
              (table_rows ls)).

Definition get_loans_by_borrower
      (ls : gmap Z Loan) (borrower : string) (st : option Status) : list Row :=
    order_by_borrowed_at_desc
      (filter (λ r : Row, borrower_id r.2 = borrower ∧ status_is st r.2)
              (table_rows ls)).

  (** Returns the table and [cursor.rowcount > 0]. *)
Definition update_loan_repayment
      (ls : gmap Z Loan) (loan_id : Z) (repaid : Z) (st : Status)
    : gmap Z Loan * bool :=
    (alter (Loan.set_repayment repaid st) loan_id ls,
     bool_decide (is_Some (ls !! loan_id))).

Definition get_all_active_loans (ls : gmap Z Loan) : list Row :=
    order_by_borrowed_at_desc
      (filter (λ r : Row, status r.2 = active) (table_rows ls)).

Definition get_overdue_loans (now : Z) (ls : gmap Z Loan) : list Row :=
    filter (λ r : Row, lender_id r.2 = SYSTEM ∧ status r.2 = active
                       ∧ past_due now r.2)
           (table_rows ls).

Definition get_active_system_loan
      (ls : gmap Z Loan) (borrower : string) : option Row :=
    head (order_by_borrowed_at_desc
            (filter (λ r : Row, lender_id r.2 = SYSTEM
                                ∧ borrower_id r.2 = borrower
                                ∧ status r.2 = active)
                    (table_rows ls))).

Definition has_overdue_system_loan
      (now : Z) (ls : gmap Z Loan) (borrower : string) : bool :=
    bool_decide
      (0 < length
             (filter (λ r : Row,
                        lender_id r.2 = SYSTEM ∧ borrower_id r.2 = borrower
                        ∧ (status r.2 = active ∨ status r.2 = overdue)
                        ∧ past_due now r.2)
                     (table_rows ls)))%nat.

End SqliteLoanRepository.

(** ** Service: [loan_service.py] *)

(** What a call returns.  The Python methods return [(True, text)] or
    [(False, text)]; the texts are kept as tags carrying the numbers that the
    text quotes.  [Raised] is an exception that leaves the method: the only
    ones that arise here come from [int()] outside a [try].  The tables
    themselves do not fail, so the [except] branches, reached on a database
    error only, have no counterpart, and foreign keys are not checked. *)
Inductive Msg :=
  (* create_loan *)
  | SelfLoan
  | PrincipalNotPositive
  | LoanRequested (loan_id : Z)
  | LenderMissing
  | LenderShort (balance : Z)
  | BorrowerMissing
  | LoanCreated (loan_id due : Z)
  (* confirm_loan *)
  | LoanNotFound
  | NotTheBorrower
  | NotPending (st : Status)
  | LenderShortAtConfirm
  | Confirmed (amount : Z)
  (* repay_all_loans *)
  | NoCoins
  | NoDebt
  | RepaidAll (total_repaid remaining_balance : Z) (details : list (Z * string * Z))
  (* repay_loan *)
  | AmountNotPositive
  | BorrowerShort (balance : Z)
  | NoLoanOwed
  | Repaid (total_repaid : Z) (paid_off : list Z) (total_remaining : option Z)
  (* force_collect *)
  | NothingToCollect
  | BorrowerBroke
  | DebitFailed
  | CreditFailed
  | Collected (total_collected : Z) (paid_off : list Z)
              (total_remaining : option Z) (shortfall : option (Z * Z))
  (* borrow_from_system *)
  | AccountMissing
  | ExistingSystemLoan (remaining : Z)
  | OverdueLock
  | NoQuota
  | OverQuota (max_borrow : Z)
  | DisburseFailed
  | Borrowed (loan_id amount due due_at : Z).

Inductive Reply :=
  | Ok (m : Msg)
  | Err (m : Msg)
  | Raised.

(** The configuration held by a [LoanService] object. *)
Record LoanService := mkLoanService {
  default_interest_rate : float;
  system_loan_ratio : float;
  system_loan_days : Z
}.

Definition seconds_per_day : Z := 86400.

Module LoanService.

(** *** Statements run on the [users] table *)

(** [UPDATE users SET coins = MAX(0, coins - ?) WHERE user_id = ?] *)
Definition sql_debit (amount : Z) (user_id : string) (us : gmap string User)
  : gmap string User :=
  alter (λ u, mkUser (Z.max 0 (coins u - amount)) (max_coins u)) user_id us.

(** [UPDATE users SET coins = coins + ? WHERE user_id = ?] *)
Definition sql_credit (amount : Z) (user_id : string) (us : gmap string User)
  : gmap string User :=
  alter (λ u, mkUser (coins u + amount) (max_coins u)) user_id us.

(** [UPDATE users SET max_coins = coins WHERE user_id = ? AND coins > max_coins] *)
Definition sql_raise_max_coins (user_id : string) (us : gmap string User)
  : gmap string User :=
  alter (λ u, if max_coins u <? coins u then mkUser (coins u) (coins u) else u)
        user_id us.

(** [UPDATE users SET coins = ? WHERE user_id = ?] *)
Definition sql_set_coins (amount : Z) (user_id : string) (us : gmap string User)
  : gmap string User :=
  alter (λ u, mkUser amount (max_coins u)) user_id us.

(** [UPDATE loans SET repaid_amount = ?, status = ?, updated_at = ? WHERE loan_id = ?] *)
Definition sql_update_loan (repaid : Z) (st : Status) (loan_id : Z)
    (ls : gmap Z Loan) : gmap Z Loan :=
  alter (Loan.set_repayment repaid st) loan_id ls.

(** *** [_update_coins] *)

Definition _update_coins (us : gmap string User) (user_id : string) (amount : Z)
  : gmap string User * bool :=
  match SqliteUserRepository.get_by_id us user_id with
  | None => (us, false)
  | Some user =>
      let c := coins user + amount in
      let c := if c <? 0 then 0 else c in
      (SqliteUserRepository.update us user_id (mkUser c (max_coins user)), true)
  end.

(** [int(principal * (1 + interest_rate))], as [create_loan] and
    [borrow_from_system] compute [due_amount]. *)
Definition due_amount_for (principal : Z) (rate : float) : option Z :=
  py_int (float_of_int principal * (1 + rate))%float.

(** [int(max_coins * self.system_loan_ratio)] *)
Definition max_borrow_amount (self : LoanService) (borrower_row : User) : option Z :=
  py_int (float_of_int (max_coins borrower_row) * system_loan_ratio self)%float.

(** *** [create_loan] *)

Definition create_loan (self : LoanService) (now : Z) (db : DB)
    (lender borrower : string) (principal : Z) (rate : option float)
  : Reply * DB :=
  if bool_decide (lender = borrower) then (Err SelfLoan, db)
  else if principal <=? 0 then (Err PrincipalNotPositive, db)
  else
    let rate := default (default_interest_rate self) rate in
    match due_amount_for principal rate with
    | None => (Raised, db)
    | Some due =>
        let loan :=
          mkLoan lender borrower principal rate now due 0
                 (if bool_decide (lender ≠ SYSTEM) then pending else active)
                 None in
        if bool_decide (lender ≠ SYSTEM) then
          let '(ls, loan_id) := SqliteLoanRepository.create_loan (loans db) loan in
          (Ok (LoanRequested loan_id), mkDB (users db) ls)
        else
          match users db !! lender with
          | None => (Err LenderMissing, db)
          | Some row =>
              if coins row <? principal then (Err (LenderShort (coins row)), db)
              else
                match users db !! borrower with
                | None => (Err BorrowerMissing, db)
                | Some _ =>
                    let us := sql_debit principal lender (users db) in
                    let us := sql_credit principal borrower us in
                    let us := sql_raise_max_coins borrower us in
                    let loan_id := SqliteLoanRepository.lastrowid (loans db) in
                    (Ok (LoanCreated loan_id due),
                     mkDB us (<[loan_id := loan]> (loans db)))
                end
          end
    end.

(** *** [confirm_loan] *)

Definition confirm_loan (now : Z) (db : DB) (loan_id : Z) (user_id : string)
  : Reply * DB :=
  match SqliteLoanRepository.get_loan_by_id (loans db) loan_id with
  | None => (Err LoanNotFound, db)
  | Some loan =>
      if bool_decide (borrower_id loan ≠ user_id) then (Err NotTheBorrower, db)
      else if bool_decide (status loan ≠ pending) then (Err (NotPending (status loan)), db)
      else
        match users db !! lender_id loan with
        | None => (Err LenderMissing, db)
        | Some row =>
            if coins row <? principal loan then (Err LenderShortAtConfirm, db)
            else
              let us := sql_debit (principal loan) (lender_id loan) (users db) in
              let us := sql_credit (principal loan) (borrower_id loan) us in
              let us := sql_raise_max_coins (borrower_id loan) us in
              let ls := alter (Loan.set_active_at now) loan_id (loans db) in
              (Ok (Confirmed (principal loan)), mkDB us ls)
        end
  end.

(** *** [repay_all_loans] *)

(** The sort key [(0 if x.is_system_loan() else 1, -x.interest_rate,
    x.borrowed_at)]; the float component is represented by its exact scaled
    value. *)
Definition repay_all_key (x : Loan) : Z * Z * Z :=
  (if Loan.is_system_loan x then 0 else 1,
   float_scaled (- interest_rate x)%float,
   borrowed_at x).

(** Python's order on tuples: the first differing component decides. *)
Definition tuple_leb (a b : Z * Z * Z) : bool :=
  let '(a1, a2, a3) := a in
  let '(b1, b2, b3) := b in
  if a1 <? b1 then true else if b1 <? a1 then false
  else if a2 <? b2 then true else if b2 <? a2 then false
  else a3 <=? b3.

Definition sort_for_repay_all (rows : list Row) : list Row :=
  stable_sort (λ a b : Row, tuple_leb (repay_all_key a.2) (repay_all_key b.2)) rows.

(** [SELECT * FROM loans WHERE borrower_id = ? AND status IN ('active', 'overdue')] *)
Definition select_owed (ls : gmap Z Loan) (borrower : string) : list Row :=
  filter (λ r : Row, borrower_id r.2 = borrower
                     ∧ (status r.2 = active ∨ status r.2 = overdue))
         (SqliteLoanRepository.table_rows ls).

(** The loop over the sorted loans; its variables are the two tables,
    [total_repaid], [remaining_balance] and [repaid_details]. *)
Fixpoint repay_all_loop (all_loans : list Row)
    (us : gmap string User) (ls : gmap Z Loan)
    (total_repaid remaining_balance : Z) (repaid_details : list (Z * string * Z))
  : gmap string User * gmap Z Loan * Z * Z * list (Z * string * Z) :=
  match all_loans with
  | [] => (us, ls, total_repaid, remaining_balance, repaid_details)
  | (loan_id, loan) :: rest =>
      if remaining_balance <=? 0
      then (us, ls, total_repaid, remaining_balance, repaid_details)
      else
        let debt := Loan.remaining_amount loan in
        let repay_amount := Z.min remaining_balance debt in
        if repay_amount <=? 0
        then repay_all_loop rest us ls total_repaid remaining_balance repaid_details
        else
          let new_repaid := repaid_amount loan + repay_amount in
          let new_status :=
            if due_amount loan <=? new_repaid then paid else status loan in
          let ls := sql_update_loan new_repaid new_status loan_id ls in
          let us :=
            if negb (Loan.is_system_loan loan)
            then sql_raise_max_coins (lender_id loan)
                   (sql_credit repay_amount (lender_id loan) us)
            else us in
          repay_all_loop rest us ls
            (total_repaid + repay_amount) (remaining_balance - repay_amount)
            (repaid_details ++ [(loan_id, lender_id loan, repay_amount)])
  end.

Definition repay_all_loans (db : DB) (borrower : string) : Reply * DB :=
  match users db !! borrower with
  | None => (Err NoCoins, db)
  | Some row =>
      if coins row <=? 0 then (Err NoCoins, db)
      else
        let initial_balance := coins row in
        let rows := select_owed (loans db) borrower in
        if bool_decide (rows = []) then (Ok NoDebt, db)
        else
          let all_loans := sort_for_repay_all rows in
          let '(us, ls, total_repaid, remaining_balance, repaid_details) :=
            repay_all_loop all_loans (users db) (loans db) 0 initial_balance [] in
          let us := sql_set_coins remaining_balance borrower us in
          (Ok (RepaidAll total_repaid remaining_balance repaid_details),
           mkDB us ls)
  end.

(** *** [repay_loan] *)

(** [SELECT * FROM loans WHERE borrower_id = ? AND lender_id = ? AND status IN
    ('active', 'overdue') ORDER BY borrowed_at ASC]; the branch for the system
    lender is the same query with the lender fixed. *)
Definition select_owed_to (ls : gmap Z Loan) (borrower lender : string) : list Row :=
  SqliteLoanRepository.order_by_borrowed_at_asc
    (filter (λ r : Row, borrower_id r.2 = borrower ∧ lender_id r.2 = lender
                        ∧ (status r.2 = active ∨ status r.2 = overdue))
            (SqliteLoanRepository.table_rows ls)).

Fixpoint repay_loop (active_loans : list Row) (ls : gmap Z Loan)
    (total_repaid : Z) (paid_off_loans : list Z) (remaining_amount : Z)
  : gmap Z Loan * Z * list Z * Z :=
  match active_loans with
  | [] => (ls, total_repaid, paid_off_loans, remaining_amount)
  | (loan_id, loan) :: rest =>
      if remaining_amount <=? 0
      then (ls, total_repaid, paid_off_loans, remaining_amount)
      else
        let remaining_debt := Loan.remaining_amount loan in
        let repay_this_loan := Z.min remaining_amount remaining_debt in
        let new_repaid_amount := repaid_amount loan + repay_this_loan in
        let new_status :=
          if due_amount loan <=? new_repaid_amount then paid else active in
        let ls := sql_update_loan new_repaid_amount new_status loan_id ls in
        repay_loop rest ls
          (total_repaid + repay_this_loan)
          (if bool_decide (new_status = paid)
           then paid_off_loans ++ [loan_id] else paid_off_loans)
          (remaining_amount - repay_this_loan)
  end.

(** The closing lines of a repayment or collection message: what is still
    owed, read back from the repository. *)
Definition remaining_of (rows : list Row) : option Z :=
  if bool_decide (rows = []) then None
  else Some (sumZ (Loan.remaining_amount <$> rows.*2)).

Definition repay_loan (db : DB) (borrower lender : string) (amount : Z)
  : Reply * DB :=
  if amount <=? 0 then (Err AmountNotPositive, db)
  else
    match users db !! borrower with
    | None => (Err BorrowerMissing, db)
    | Some row =>
        if coins row <? amount then (Err (BorrowerShort (coins row)), db)
        else
          let active_loans := select_owed_to (loans db) borrower lender in
          if bool_decide (active_loans = []) then (Err NoLoanOwed, db)
          else
            let '(ls, total_repaid, paid_off_loans, _) :=
              repay_loop active_loans (loans db) 0 [] amount in
            let us := sql_debit total_repaid borrower (users db) in
            let us :=
              if bool_decide (lender ≠ SYSTEM)
              then sql_raise_max_coins lender (sql_credit total_repaid lender us)
              else us in
            let remaining_loans :=
              if bool_decide (lender = SYSTEM)
              then option_list (SqliteLoanRepository.get_active_system_loan ls borrower)
              else SqliteLoanRepository.get_active_loans_between_users ls lender borrower in
            (Ok (Repaid total_repaid paid_off_loans (remaining_of remaining_loans)),
             mkDB us ls)
    end.

(** *** [force_collect] *)

Fixpoint collect_loop (active_loans : list Row) (ls : gmap Z Loan)
    (total_collected : Z) (paid_off_loans : list Z) (remaining_amount : Z)
  : gmap Z Loan * Z * list Z * Z :=
  match active_loans with
  | [] => (ls, total_collected, paid_off_loans, remaining_amount)
  | (loan_id, loan) :: rest =>
      if remaining_amount <=? 0
      then (ls, total_collected, paid_off_loans, remaining_amount)
      else
        let remaining_debt := Loan.remaining_amount loan in
        let collect_this_loan := Z.min remaining_amount remaining_debt in
        let new_repaid_amount := repaid_amount loan + collect_this_loan in
        let new_status :=
          if due_amount loan <=? new_repaid_amount then paid else active in
        let ls :=
          (SqliteLoanRepository.update_loan_repayment
             ls loan_id new_repaid_amount new_status).1 in
        collect_loop rest ls
          (total_collected + collect_this_loan)
          (if bool_decide (new_status = paid)
           then paid_off_loans ++ [loan_id] else paid_off_loans)
          (remaining_amount - collect_this_loan)
  end.

(** [active_loans.sort(key=lambda x: x.borrowed_at)] *)
Definition collect_order (active_loans : list Row) : list Row :=
  stable_sort (λ a b : Row, borrowed_at a.2 <=? borrowed_at b.2) active_loans.

(** The repository commits every [update_loan_repayment] on its own, so the
    loan table reached by the loop is kept on each return that follows it. *)
Definition force_collect (db : DB) (lender borrower : string) (amount : option Z)
  : Reply * DB :=
  let active_loans :=
    SqliteLoanRepository.get_active_loans_between_users (loans db) lender borrower in
  if bool_decide (active_loans = []) then (Err NothingToCollect, db)
  else
    let total_debt := sumZ (Loan.remaining_amount <$> active_loans.*2) in
    match (match amount with
           | None => Some total_debt
           | Some a => if a <=? 0 then None else Some (Z.min a total_debt)
           end) with
    | None => (Err AmountNotPositive, db)
    | Some collect_amount =>
        match SqliteUserRepository.get_by_id (users db) borrower with
        | None => (Err BorrowerMissing, db)
        | Some borrower_row =>
            let actual_collect := Z.min collect_amount (coins borrower_row) in
            if actual_collect <=? 0 then (Err BorrowerBroke, db)
            else
              let active_loans := collect_order active_loans in
              let '(ls, total_collected, paid_off_loans, _) :=
                collect_loop active_loans (loans db) 0 [] actual_collect in
              let '(us, success) :=
                _update_coins (users db) borrower (- total_collected) in
              if negb success then (Err DebitFailed, mkDB us ls)
              else
                let '(us', success) := _update_coins us lender total_collected in
                if negb success then
                  (Err CreditFailed,
                   mkDB (_update_coins us borrower total_collected).1 ls)
                else
                  let remaining_loans :=
                    SqliteLoanRepository.get_active_loans_between_users
                      ls lender borrower in
                  (Ok (Collected total_collected paid_off_loans
                         (remaining_of remaining_loans)
                         (if actual_collect <? collect_amount
                          then Some (actual_collect, collect_amount) else None)),
                   mkDB us' ls)
        end
    end.

(** *** [borrow_from_system] *)

Definition borrow_from_system (self : LoanService) (now : Z) (db : DB)
    (borrower : string) (amount : option Z) : Reply * DB :=
  match SqliteUserRepository.get_by_id (users db) borrower with
  | None => (Err AccountMissing, db)
  | Some borrower_row =>
      match SqliteLoanRepository.get_active_system_loan (loans db) borrower with
      | Some existing_loan =>
          (Err (ExistingSystemLoan (Loan.remaining_amount existing_loan.2)), db)
      | None =>
          if SqliteLoanRepository.has_overdue_system_loan now (loans db) borrower
          then (Err OverdueLock, db)
          else
            match max_borrow_amount self borrower_row with
            | None => (Raised, db)
            | Some max_borrow_amount =>
                if max_borrow_amount <=? 0 then (Err NoQuota, db)
                else
                  match (match amount with
                         | None => inl max_borrow_amount
                         | Some a =>
                             if a <=? 0 then inr AmountNotPositive
                             else if max_borrow_amount <? a
                                  then inr (OverQuota max_borrow_amount)
                                  else inl a
                         end) with
                  | inr e => (Err e, db)
                  | inl amount =>
                      match due_amount_for amount (default_interest_rate self) with
                      | None => (Raised, db)
                      | Some due =>
                          let due_at := now + system_loan_days self * seconds_per_day in
                          let loan :=
                            mkLoan SYSTEM borrower amount (default_interest_rate self)
                                   now due 0 active (Some due_at) in
                          let '(us, success) := _update_coins (users db) borrower amount in
                          if negb success then (Err DisburseFailed, db)
                          else
                            let '(ls, loan_id) :=
                              SqliteLoanRepository.create_loan (loans db) loan in
                            (Ok (Borrowed loan_id amount due due_at), mkDB us ls)
                      end
                  end
            end
      end
  end.

(** *** Readers that persist the overdue transition *)

(** [if loan.is_overdue() and loan.status == "active": update(..., "overdue")],
    run over fetched rows; returns the table and the rows as the caller now
    holds them. *)
Fixpoint mark_overdue (now : Z) (rows : list Row) (ls : gmap Z Loan)
  : gmap Z Loan * list Row :=
  match rows with
  | [] => (ls, [])
  | (loan_id, loan) :: rest =>
      if Loan.is_overdue now loan && bool_decide (status loan = active) then
        let ls :=
          (SqliteLoanRepository.update_loan_repayment
             ls loan_id (repaid_amount loan) overdue).1 in
        let '(ls, rest) := mark_overdue now rest ls in
        (ls, (loan_id, Loan.set_repayment (repaid_amount loan) overdue loan) :: rest)
      else
        let '(ls, rest) := mark_overdue now rest ls in
        (ls, (loan_id, loan) :: rest)
  end.

(** The [seen] loop of [get_all_loans_list]. *)
Fixpoint unique_loans (all_loans : list Row) (seen : gset Z) : list Row :=
  match all_loans with
  | [] => []
  | r :: rest =>
      if bool_decide (r.1 ∈ seen) then unique_loans rest seen
      else r :: unique_loans rest ({[r.1]} ∪ seen)
  end.

(** Returns the table and the rows shown (at most 20); the text is not
    modelled.  Python tests [user_id] for truth, so the empty string selects
    the listing of all loans as [None] does. *)
Definition get_all_loans_list (now : Z) (db : DB) (user_id : option string)
  : list Row * DB :=
  let rows :=
    match user_id with
    | Some u =>
        if bool_decide (u = "") then SqliteLoanRepository.get_all_active_loans (loans db)
        else
          let lent := SqliteLoanRepository.get_loans_by_lender (loans db) u (Some active) in
          let borrowed := SqliteLoanRepository.get_loans_by_borrower (loans db) u (Some active) in
          stable_sort (λ a b : Row, borrowed_at b.2 <=? borrowed_at a.2)
                      (unique_loans (lent ++ borrowed) ∅)
    | None => SqliteLoanRepository.get_all_active_loans (loans db)
    end in
  let '(ls, shown) := mark_overdue now (take 20 rows) (loans db) in
  (shown, mkDB (users db) ls).

(** Returns whether the user is restricted and the overdue debt quoted. *)
Definition check_user_overdue_status (now : Z) (db : DB) (user_id : string)
  : (bool * Z) * DB :=
  let rows := SqliteLoanRepository.get_loans_by_borrower (loans db) user_id None in
  let system_loans :=
    filter (λ r : Row, lender_id r.2 = SYSTEM
                       ∧ (status r.2 = active ∨ status r.2 = overdue)) rows in
  let '(ls, marked) := mark_overdue now system_loans (loans db) in
  let overdue_loans := filter (λ r : Row, Loan.is_overdue now r.2 = true) marked in
  (if bool_decide (overdue_loans = []) then (false, 0)
   else (true, sumZ (Loan.remaining_amount <$> overdue_loans.*2)),
   mkDB (users db) ls).

Definition get_total_debt (now : Z) (db : DB) (user_id : string) : Z * DB :=
  let borrowed :=
    SqliteLoanRepository.get_loans_by_borrower (loans db) user_id (Some active) in
  let ls := (mark_overdue now borrowed (loans db)).1 in
  let all_borrowed := SqliteLoanRepository.get_loans_by_borrower ls user_id None in
  let active_borrowed :=
    filter (λ r : Row, status r.2 = active ∨ status r.2 = overdue) all_borrowed in
  (sumZ (Loan.remaining_amount <$> active_borrowed.*2), mkDB (users db) ls).

(** *** [get_user_loans_summary] *)

(** The six numbers that the text of the summary quotes. *)
Record LoansSummary := mkLoansSummary {
  lent_count : nat;
  total_lent : Z;
  total_receivable : Z;
  borrowed_count : nat;
  total_borrowed : Z;
  total_payable : Z
}.

Definition get_user_loans_summary (db : DB) (user_id : string) : LoansSummary :=
  let lent_loans :=
    SqliteLoanRepository.get_loans_by_lender (loans db) user_id (Some active) in
  let borrowed_loans :=
    SqliteLoanRepository.get_loans_by_borrower (loans db) user_id (Some active) in
  mkLoansSummary
    (length lent_loans)
    (sumZ (principal <$> lent_loans.*2))
    (sumZ (Loan.remaining_amount <$> lent_loans.*2))
    (length borrowed_loans)
    (sumZ (principal <$> borrowed_loans.*2))
    (sumZ (Loan.remaining_amount <$> borrowed_loans.*2)).

End LoanService.

(** ** The service as a transition system *)

(** One call of a public method that can write to the tables. *)
Inductive Call :=
  | CreateLoan (lender borrower : string) (principal : Z) (rate : option float)
  | ConfirmLoan (loan_id : Z) (user_id : string)
  | RepayAllLoans (borrower : string)
  | RepayLoan (borrower lender : string) (amount : Z)
  | ForceCollect (lender borrower : string) (amount : option Z)
  | BorrowFromSystem (borrower : string) (amount : option Z)
  | GetAllLoansList (user_id : option string)
  | CheckUserOverdueStatus (user_id : string)
  | GetTotalDebt (user_id : string).

(** The tables after a call made at time [now]. *)
Definition run (self : LoanService) (now : Z) (c : Call) (db : DB) : DB :=
  match c with
  | CreateLoan l b p r => (LoanService.create_loan self now db l b p r).2
  | ConfirmLoan i u => (LoanService.confirm_loan now db i u).2
  | RepayAllLoans b => (LoanService.repay_all_loans db b).2
  | RepayLoan b l a => (LoanService.repay_loan db b l a).2
  | ForceCollect l b a => (LoanService.force_collect db l b a).2
  | BorrowFromSystem b a => (LoanService.borrow_from_system self now db b a).2
  | GetAllLoansList u => (LoanService.get_all_loans_list now db u).2
  | CheckUserOverdueStatus u => (LoanService.check_user_overdue_status now db u).2
  | GetTotalDebt u => (LoanService.get_total_debt now db u).2
  end.

(** The configuration of the constructor's defaults. *)
Definition default_service : LoanService := mkLoanService 0.05 0.10 7.

(** ** Properties of the ledger: definitions *)

(** *** How a stored loan may change during one call made at time [now] *)

(** The status changes that the code performs. *)
Definition status_step (now : Z) (l : Loan) (s' : Status) : Prop :=
  s' = status l
  ∨ (status l = pending ∧ s' = active)
  ∨ ((status l = active ∨ status l = overdue) ∧ s' = paid)
  ∨ (status l = overdue ∧ s' = active)
  ∨ (status l = active ∧ s' = overdue ∧ lender_id l = SYSTEM ∧ past_due now l).

(** A stored loan [l] and the same row [l'] after a call: the parties, the
    principal, the rate, the amount due and the due date are kept, the amount
    repaid does not decrease and stays within the amount due if it was, and
    the status makes one of the steps above. *)
Record loan_evolves (now : Z) (l l' : Loan) : Prop := mk_loan_evolves {
  ev_lender : lender_id l' = lender_id l;
  ev_borrower : borrower_id l' = borrower_id l;
  ev_principal : principal l' = principal l;
  ev_rate : interest_rate l' = interest_rate l;
  ev_due : due_amount l' = due_amount l;
  ev_due_date : due_date l' = due_date l;
  ev_repaid : repaid_amount l ≤ repaid_amount l';
  ev_bound : repaid_amount l ≤ due_amount l → repaid_amount l' ≤ due_amount l';
  ev_status : status_step now l (status l')
}.

(** Every row of [m] is still in [m'], changed according to [R]. *)
Definition table_evolves (R : Loan → Loan → Prop) (m m' : gmap Z Loan) : Prop :=
  ∀ i l, m !! i = Some l → ∃ l', m' !! i = Some l' ∧ R l l'.

(** As [table_evolves], and [m'] has no further row. *)
Definition table_updated (R : Loan → Loan → Prop) (m m' : gmap Z Loan) : Prop :=
  table_evolves R m m' ∧ ∀ i, m !! i = None → m' !! i = None.

(** [m'] results from [m] by a pass over fetched rows that rewrites some of
    them, each by a function that respects [R] on the fetched value. *)
Inductive updated_by (R : Loan → Loan → Prop)
  : list Row → gmap Z Loan → gmap Z Loan → Prop :=
  | updated_stop rows m : updated_by R rows m m
  | updated_skip r rows m m' :
      updated_by R rows m m' → updated_by R (r :: rows) m m'
  | updated_row i l f rows m m' :
      R l (f l) → updated_by R rows (alter f i m) m' →
      updated_by R ((i, l) :: rows) m m'.

(** Rows fetched from table [ls]: distinct keys, each row as stored. *)
Definition fetched_from (ls : gmap Z Loan) (rows : list Row) : Prop :=
  NoDup rows.*1 ∧ ∀ i l, (i, l) ∈ rows → ls !! i = Some l.

(** A fetched row that is still to be paid. *)
Definition still_owed (r : Row) : Prop := status r.2 = active ∨ status r.2 = overdue.

(** *** Candidate sets *)

(** The loans between a pair that are still owed. *)
Definition owed_between (lender borrower : string) (l : Loan) : Prop :=
  lender_id l = lender ∧ borrower_id l = borrower
  ∧ (status l = active ∨ status l = overdue).

(** The loans between a pair whose status is ['active']. *)
Definition active_between (lender borrower : string) (l : Loan) : Prop :=
  lender_id l = lender ∧ borrower_id l = borrower ∧ status l = active.

(** All loans a borrower still owes. *)
Definition owed_by (borrower : string) (l : Loan) : Prop :=
  borrower_id l = borrower ∧ (status l = active ∨ status l = overdue).

(** Ascending [borrowed_at]. *)
Definition oldest_first (a b : Row) : Prop := borrowed_at a.2 ≤ borrowed_at b.2.

(** *** Allocation *)


(** Each loan in turn receives the smaller of the funds left and what it is
    still owed. *)
Fixpoint allocate (funds : Z) (rows : list Row) : list Z :=
  match rows with
  | [] => []
  | r :: rest =>
      let a := Z.min funds (Loan.remaining_amount r.2) in
      a :: allocate (funds - a) rest
  end.

(** A loan after it has received [a] in "repay everything". *)
Definition settle (a : Z) (l : Loan) : Loan :=
  if 0 <? a then
    Loan.set_repayment (repaid_amount l + a)
      (if due_amount l <=? repaid_amount l + a then paid else status l) l
  else l.

(** *** Balances *)

(** The balance of an account, if there is one. *)
Definition coins_of (us : gmap string User) (user_id : string) : option Z :=
  coins <$> us !! user_id.



(** *** The amount due *)


(** *** The ledger over time *)

Record World := mkWorld { tables : DB; clock : Z }.

(** Calls are made at times that do not go back. *)
Inductive step (self : LoanService) (allowed : Call → Prop) : World → World → Prop :=
  | step_call w now c :
      allowed c → clock w ≤ now →
      step self allowed w (mkWorld (run self now c (tables w)) now).

(** Several calls in a row. *)
Definition steps (self : LoanService) (allowed : Call → Prop) : World → World → Prop :=
  rtc (step self allowed).


Definition any_call (c : Call) : Prop := True.


(** A system loan of [borrower] that is not settled. *)
Definition outstanding_system_loan (borrower : string) (l : Loan) : Prop :=
  lender_id l = SYSTEM ∧ borrower_id l = borrower
  ∧ (status l = active ∨ status l = overdue).



(** *** Further notions for the properties of the code *)

(** Descending [borrowed_at]. *)
Definition newest_first (a b : Row) : Prop := borrowed_at b.2 ≤ borrowed_at a.2.

(** What fetched rows still owe together. *)
Definition total_remaining (rows : list Row) : Z :=
  sumZ (Loan.remaining_amount <$> rows.*2).

(** The test under which a reader writes the overdue status. *)
Definition to_mark (now : Z) (l : Loan) : bool :=
  Loan.is_overdue now l && bool_decide (status l = active).

(** No account is overdrawn. *)
Definition nonneg_balances (us : gmap string User) : Prop :=
  ∀ u row, us !! u = Some row → 0 ≤ coins row.

(** Every loan advanced something. *)
Definition positive_principals (ls : gmap Z Loan) : Prop :=
  ∀ i l, ls !! i = Some l → 0 < principal l.

(** A fetched loan after the overdue test of a reader. *)
Definition marked (now : Z) (l : Loan) : Loan :=
  if to_mark now l then Loan.set_repayment (repaid_amount l) overdue l else l.

(** The table after a reader has tested every stored loan that satisfies [P]. *)
Definition mark_where (now : Z) (P : Loan → Prop) `{!∀ l, Decision (P l)}
    (ls : gmap Z Loan) : gmap Z Loan :=
  (λ l, if decide (P l) then marked now l else l) <$> ls.

(** The system loans of a borrower that are not settled and past due. *)
Definition overdue_system_rows (now : Z) (ls : gmap Z Loan) (borrower : string)
  : list Row :=
  filter (λ r : Row, lender_id r.2 = SYSTEM ∧ borrower_id r.2 = borrower
                     ∧ (status r.2 = active ∨ status r.2 = overdue)
                     ∧ past_due now r.2)
         (SqliteLoanRepository.table_rows ls).

(** An active loan of a borrower: what [get_total_debt] tests. *)
Definition active_loan_of (borrower : string) (l : Loan) : Prop :=
  borrower_id l = borrower ∧ status l = active.

(** A stored loan is consistent: the amount due is what the model computes
    from principal and rate, the amount repaid is not negative, a loan
    written as paid is paid off, and nothing is repaid on a pending loan. *)
Record well_formed (l : Loan) : Prop := mk_well_formed {
  wf_due : Loan.calculate_due_amount l = Some (due_amount l);
  wf_repaid : 0 ≤ repaid_amount l;
  wf_paid : status l = paid → Loan.is_paid_off l = true;
  wf_pending : status l = pending → repaid_amount l = 0
}.

(** A change of a row that keeps it consistent. *)
Definition keeps_well_formed (l l' : Loan) : Prop := well_formed l → well_formed l'.


(** A reply that reports failure, or an exception. *)
Definition failed (r : Reply) : Prop :=
  match r with Ok _ => False | _ => True end.

(** *** Example states *)

Definition day : Z := 86400.

(** Two players and the borrower's overdue system loan. *)
Definition overdue_system_loan : Loan :=
  mkLoan SYSTEM "bob" 1000 0.05 0 1050 0 overdue (Some (7 * day)).

Definition db_overdue : DB :=
  mkDB (<["bob" := mkUser 400 10000]> (<["alice" := mkUser 50 50]> ∅))
       (<[1 := overdue_system_loan]> ∅).

(** Accounts only. *)
Definition db_accounts : DB :=
  mkDB (<["bob" := mkUser 400 10000]> (<["alice" := mkUser 50 50]> ∅)) ∅.

(** A peer loan whose lender has no account row. *)
Definition orphan_loan : Loan :=
  mkLoan "carol" "bob" 100 0.05 0 105 0 active None.

Definition db_orphan : DB :=
  mkDB (<["bob" := mkUser 400 10000]> ∅) (<[1 := orphan_loan]> ∅).

(** As [db_orphan], with an account for the lender. *)
Definition db_orphan_funded : DB :=
  mkDB (<["carol" := mkUser 0 0]> (users db_orphan)) (loans db_orphan).

(** A peer loan waiting for the borrower's confirmation. *)
Definition pending_loan : Loan :=
  mkLoan "alice" "bob" 1000 0.05 0 1050 0 pending None.

Definition db_pending : DB :=
  mkDB (<["bob" := mkUser 400 500]> (<["alice" := mkUser 5000 5000]> ∅))
       (<[1 := pending_loan]> ∅).




(** The three loans of the ordering example: A (system, 10%, day 1),
    B (peer, 8%, day 2), C (peer, 8%, day 0), stored under keys 1, 2, 3. *)
Definition loan_A : Loan :=
  mkLoan SYSTEM "bob" 100 0.10 (1 * day) 110 0 active (Some (8 * day)).

Definition loan_B : Loan :=
  mkLoan "alice" "bob" 100 0.08 (2 * day) 108 0 active None.

Definition loan_C : Loan :=
  mkLoan "carol" "bob" 100 0.08 0 108 0 active None.

Definition db_abc : DB :=
  mkDB (<["bob" := mkUser 250 1000]>
          (<["alice" := mkUser 0 0]> (<["carol" := mkUser 5 5]> ∅)))
       (<[1 := loan_A]> (<[2 := loan_B]> (<[3 := loan_C]> ∅))).

(** The settlement scenario: balance 500, a system loan of 300 due and a
    peer loan of 400 due at 8%. *)
Definition db_settlement : DB :=
  mkDB (<["bob" := mkUser 500 3000]> (<["alice" := mkUser 0 1000]> ∅))
       (<[1 := mkLoan SYSTEM "bob" 286 0.05 0 300 0 active (Some (7 * day))]>
          (<[2 := mkLoan "alice" "bob" 371 0.08 day 400 0 active None]> ∅)).

(** The collection scenario: 1000 owed, balance 150. *)
Definition db_shortfall : DB :=
  mkDB (<["bob" := mkUser 150 3000]> (<["alice" := mkUser 0 1000]> ∅))
       (<[1 := mkLoan "alice" "bob" 953 0.05 0 1000 0 active None]> ∅).



(** ** Lemmas *)

(** *** Floats *)


(** *** Sorting *)

Section stable_sort_facts.
Context {A : Type} (leb : A → A → bool).

Lemma insert_sorted_perm (x : A) (l : list A) : insert_sorted leb x l ≡ₚ x :: l.
Proof.
  induction l as [|y l IH]; simpl; [done|].
  destruct (leb x y); [done|].
  rewrite IH. apply Permutation_swap.
Qed.

Lemma stable_sort_perm (l : list A) : stable_sort leb l ≡ₚ l.
Proof.
  induction l as [|x l IH]; simpl; [done|].
  rewrite insert_sorted_perm. by rewrite IH.
Qed.

Lemma elem_of_stable_sort (x : A) (l : list A) : x ∈ stable_sort leb l ↔ x ∈ l.
Proof. by rewrite stable_sort_perm. Qed.


Context (R : A → A → Prop) `{!Transitive R}.
Context (leb_true : ∀ x y, leb x y = true → R x y).
Context (leb_false : ∀ x y, leb x y = false → R y x).

Lemma insert_sorted_sorted (x : A) (l : list A) :
  StronglySorted R l → StronglySorted R (insert_sorted leb x l).
Proof.
  induction 1 as [|y l Hs IH Hall]; simpl.
  - repeat constructor.
  - destruct (leb x y) eqn:E.
    + constructor; [by constructor|].
      constructor; [by apply leb_true|].
      eapply Forall_impl; [exact Hall|]. intros z Hz.
      transitivity y; [by apply leb_true | done].
    + constructor; [done|].
      rewrite insert_sorted_perm. constructor; [by apply leb_false | done].
Qed.

Lemma stable_sort_sorted (l : list A) : StronglySorted R (stable_sort leb l).
Proof.
  induction l as [|x l IH]; simpl; [constructor|].
  by apply insert_sorted_sorted.
Qed.

End stable_sort_facts.

(** *** Fetched rows *)

Section rows.
Import SqliteLoanRepository.

Lemma elem_of_table_rows (ls : gmap Z Loan) (i : Z) (l : Loan) :
  (i, l) ∈ table_rows ls ↔ ls !! i = Some l.
Proof.
  unfold table_rows. rewrite elem_of_stable_sort. apply elem_of_map_to_list.
Qed.

Lemma NoDup_table_rows (ls : gmap Z Loan) : NoDup (table_rows ls).*1.
Proof.
  unfold table_rows. rewrite stable_sort_perm. apply NoDup_fst_map_to_list.
Qed.

Lemma NoDup_keys_filter (P : Row → Prop) `{!∀ r, Decision (P r)} (rows : list Row) :
  NoDup rows.*1 → NoDup (filter P rows).*1.
Proof.
  intros Hnd. eapply sublist_NoDup; [exact Hnd|].
  apply fmap_sublist, sublist_filter.
Qed.

Lemma NoDup_keys_sort (leb : Row → Row → bool) (rows : list Row) :
  NoDup rows.*1 → NoDup (stable_sort leb rows).*1.
Proof. by rewrite stable_sort_perm. Qed.

Lemma lastrowid_fresh (ls : gmap Z Loan) : ls !! lastrowid ls = None.
Proof.
  destruct (ls !! lastrowid ls) as [l|] eqn:E; [|done].
  apply elem_of_map_to_list in E.
  assert (∀ (rows : list Row) i x, (i, x) ∈ rows → i ≤ foldr Z.max 0 rows.*1) as Hmax.
  { induction rows as [|[j y] rows IH]; intros i x Hin; [by inversion Hin|].
    rewrite fmap_cons. cbn [foldr fst].
    apply elem_of_cons in Hin as [[= -> ->]|Hin]; [lia|].
    specialize (IH _ _ Hin). lia. }
  apply Hmax in E. unfold lastrowid in E. lia.
Qed.

End rows.

(** *** Passes over fetched rows *)

Section passes.
Import SqliteLoanRepository.

Lemma fetched_table_rows (ls : gmap Z Loan) : fetched_from ls (table_rows ls).
Proof.
  split; [apply NoDup_table_rows|].
  intros i l. by rewrite elem_of_table_rows.
Qed.

Lemma fetched_filter (P : Row → Prop) `{!∀ r, Decision (P r)} ls rows :
  fetched_from ls rows → fetched_from ls (filter P rows).
Proof.
  intros [Hnd Hin]. split; [by apply NoDup_keys_filter|].
  intros i l [_ ?]%list_elem_of_filter. by apply Hin.
Qed.

Lemma fetched_sort (leb : Row → Row → bool) ls rows :
  fetched_from ls rows → fetched_from ls (stable_sort leb rows).
Proof.
  intros [Hnd Hin]. split; [by apply NoDup_keys_sort|].
  intros i l. rewrite elem_of_stable_sort. apply Hin.
Qed.

Lemma fetched_take (n : nat) ls rows :
  fetched_from ls rows → fetched_from ls (take n rows).
Proof.
  intros [Hnd Hin]. split.
  - eapply sublist_NoDup; [exact Hnd|]. apply fmap_sublist, sublist_take.
  - intros i l Hil. apply Hin. eapply elem_of_sublist; [exact Hil|apply sublist_take].
Qed.

Lemma fetched_unique_loans ls rows seen :
  (∀ i l, (i, l) ∈ rows → ls !! i = Some l) →
  fetched_from ls (LoanService.unique_loans rows seen)
  ∧ ∀ r, r ∈ LoanService.unique_loans rows seen → r.1 ∉ seen.
Proof.
  revert seen. induction rows as [|[i l] rows IH]; intros seen Hin; simpl.
  - split; [split; [constructor|]|]; intros; by decompose_list_elem_of.
  - assert (∀ j x, (j, x) ∈ rows → ls !! j = Some x) as Hin'.
    { intros j x ?. apply Hin. by right. }
    case_bool_decide as Hseen; [by apply IH|].
    destruct (IH ({[i]} ∪ seen) Hin') as [[Hnd Hcur] Hfresh].
    split; [split|].
    + rewrite fmap_cons. constructor; [|done].
      intros (r & Hr1 & Hr)%list_elem_of_fmap. apply Hfresh in Hr.
      simpl in Hr1. subst i. by apply Hr, elem_of_union_l, elem_of_singleton.
    + intros j x [[= -> ->]|?]%elem_of_cons; [apply Hin; by left|by apply Hcur].
    + intros r [->|Hr]%elem_of_cons; [done|]. apply Hfresh in Hr.
      intros ?. by apply Hr, elem_of_union_r.
Qed.

Lemma updated_by_evolves R rows m0 m m' :
  updated_by R rows m m' →
  NoDup rows.*1 →
  (∀ i l, (i, l) ∈ rows → m0 !! i = Some l ∧ m !! i = Some l) →
  table_evolves R m0 m → table_evolves R m0 m'.
Proof.
  induction 1 as [rows m|r rows m m' _ IH|i l f rows m m' HR _ IH];
    intros Hnd Hcur Hev; [done|..].
  - apply IH; [by apply NoDup_cons in Hnd as [_ ?]| |done].
    intros j x ?. apply Hcur. by right.
  - rewrite fmap_cons in Hnd. apply NoDup_cons in Hnd as [Hi Hnd].
    destruct (Hcur i l) as [H0 Hm]; [by left|].
    apply IH; [done| |].
    + intros j x Hjx. destruct (Hcur j x) as [? ?]; [by right|].
      split; [done|]. rewrite lookup_alter_ne; [done|].
      intros ->. apply Hi. apply list_elem_of_fmap. by exists (j, x).
    + intros j x Hj. destruct (decide (i = j)) as [->|Hne].
      * rewrite H0 in Hj. injection Hj as <-.
        exists (f l). by rewrite lookup_alter_eq, Hm.
      * rewrite lookup_alter_ne by done. by apply Hev.
Qed.

Lemma updated_by_keys R rows m m' i :
  updated_by R rows m m' → m !! i = None → m' !! i = None.
Proof.
  induction 1 as [| |j l f rows m m' _ _ IH]; intros Hi; [done|auto|].
  apply IH. by rewrite lookup_alter_None.
Qed.

Lemma pass_updated R `{!Reflexive R} rows ls ls' :
  fetched_from ls rows → updated_by R rows ls ls' → table_updated R ls ls'.
Proof.
  intros [Hnd Hcur] Hup. split.
  - eapply updated_by_evolves; [exact Hup|done|by auto|].
    intros i l ?. by exists l.
  - intros i. by eapply updated_by_keys.
Qed.

End passes.

(** *** One loan through a payment, a confirmation, an overdue mark *)

Global Instance loan_evolves_refl now : Reflexive (loan_evolves now).
Proof. intros l. split; try done; try lia. by left. Qed.

Lemma pay_evolves now l a st :
  0 ≤ a → a ≤ Loan.remaining_amount l →
  status l = active ∨ status l = overdue →
  st = paid ∨ st = active ∨ st = status l →
  loan_evolves now l (Loan.set_repayment (repaid_amount l + a) st l).
Proof.
  unfold Loan.remaining_amount. intros Ha Hrem Hst Hnew.
  split; simpl; try done; try lia.
  unfold status_step. destruct Hnew as [->| [->| ->]]; [tauto| |tauto].
  destruct Hst as [->| ->]; tauto.
Qed.

Lemma mark_evolves now l :
  Loan.is_overdue now l = true → status l = active →
  loan_evolves now l (Loan.set_repayment (repaid_amount l) overdue l).
Proof.
  unfold Loan.is_overdue. intros Hov Hst.
  split; simpl; try done; try lia.
  right; right; right; right.
  case_bool_decide as Hl; [done|].
  unfold past_due. destruct (due_date l) as [d|]; [|done].
  case_bool_decide; [done|].
  split_and!; [done|done| |lia].
  destruct (decide (lender_id l = SYSTEM)); [done|by destruct Hl].
Qed.

Lemma confirm_evolves now t l :
  status l = pending → loan_evolves now l (Loan.set_active_at t l).
Proof.
  intros Hst. split; simpl; try done; try lia. right; left. done.
Qed.

(** *** The loops of the service are passes *)

Section loops.
Import SqliteLoanRepository LoanService.

Lemma repay_loop_updated now rows ls tot po rem :
  Forall still_owed rows →
  updated_by (loan_evolves now) rows ls (repay_loop rows ls tot po rem).1.1.1.
Proof.
  revert ls tot po rem.
  induction rows as [|[i l] rows IH]; intros ls tot po rem Hall; simpl.
  { constructor. }
  destruct (rem <=? 0) eqn:Hrem; [constructor|].
  apply Forall_cons in Hall as [Hl Hall].
  eapply (updated_row _ i l (Loan.set_repayment _ _)); [|by apply IH].
  unfold Loan.remaining_amount in *.
  apply pay_evolves; unfold Loan.remaining_amount; [lia|lia|done|].
  destruct (due_amount l <=? _); auto.
Qed.

Lemma collect_loop_updated now rows ls tot po rem :
  Forall still_owed rows →
  updated_by (loan_evolves now) rows ls (collect_loop rows ls tot po rem).1.1.1.
Proof.
  revert ls tot po rem.
  induction rows as [|[i l] rows IH]; intros ls tot po rem Hall; simpl.
  { constructor. }
  destruct (rem <=? 0) eqn:Hrem; [constructor|].
  apply Forall_cons in Hall as [Hl Hall].
  eapply (updated_row _ i l (Loan.set_repayment _ _)); [|by apply IH].
  apply pay_evolves; unfold Loan.remaining_amount; [lia|lia|done|].
  destruct (due_amount l <=? _); auto.
Qed.

Lemma repay_all_loop_updated now rows us ls tot rem det :
  Forall still_owed rows →
  updated_by (loan_evolves now) rows ls
    (repay_all_loop rows us ls tot rem det).1.1.1.2.
Proof.
  revert us ls tot rem det.
  induction rows as [|[i l] rows IH]; intros us ls tot rem det Hall; simpl.
  { constructor. }
  destruct (rem <=? 0) eqn:Hrem; [constructor|].
  apply Forall_cons in Hall as [Hl Hall].
  destruct (Z.min rem (Loan.remaining_amount l) <=? 0) eqn:Hmin.
  { apply updated_skip. by apply IH. }
  eapply (updated_row _ i l (Loan.set_repayment _ _)); [|by apply IH].
  apply pay_evolves; unfold Loan.remaining_amount; [lia|lia|done|].
  destruct (due_amount l <=? _); auto.
Qed.

Lemma mark_overdue_updated now rows ls :
  updated_by (loan_evolves now) rows ls (mark_overdue now rows ls).1.
Proof.
  revert ls. induction rows as [|[i l] rows IH]; intros ls; simpl.
  { constructor. }
  destruct (Loan.is_overdue now l && bool_decide (status l = active)) eqn:Hc.
  - apply andb_true_iff in Hc as [Hov Hst%bool_decide_eq_true].
    specialize (IH (alter (Loan.set_repayment (repaid_amount l) overdue) i ls)).
    destruct (mark_overdue now rows _) as [ls' rest] eqn:E. simpl in *.
    eapply (updated_row _ i l (Loan.set_repayment _ _)); [|exact IH].
    by apply mark_evolves.
  - specialize (IH ls).
    destruct (mark_overdue now rows ls) as [ls' rest] eqn:E. simpl in *.
    by apply updated_skip.
Qed.

End loops.

(** *** Every call lets every stored loan evolve *)

Section calls.
Import SqliteLoanRepository LoanService.

Lemma table_evolves_refl R `{!Reflexive R} (ls : gmap Z Loan) : table_evolves R ls ls.
Proof. intros i l ?. by exists l. Qed.

Lemma table_updated_refl R `{!Reflexive R} (ls : gmap Z Loan) : table_updated R ls ls.
Proof. split; [by apply table_evolves_refl|done]. Qed.

Lemma table_evolves_insert_fresh R `{!Reflexive R} (ls : gmap Z Loan) i x :
  ls !! i = None → table_evolves R ls (<[i := x]> ls).
Proof.
  intros Hi j l Hj. exists l. split; [|done].
  rewrite lookup_insert_ne; [done|]. intros ->. congruence.
Qed.

Lemma Forall_still_owed_filter (P : Row → Prop) `{!∀ r, Decision (P r)} rows :
  (∀ r, P r → still_owed r) → Forall still_owed (filter P rows).
Proof.
  intros HP. apply Forall_forall. intros r [? _]%list_elem_of_filter. auto.
Qed.

Lemma Forall_sort {A} (P : A → Prop) (leb : A → A → bool) (l : list A) :
  Forall P l → Forall P (stable_sort leb l).
Proof. by rewrite stable_sort_perm. Qed.

Lemma create_loan_evolves self now db l b p r :
  table_evolves (loan_evolves now) (loans db)
    (loans (create_loan self now db l b p r).2).
Proof.
  unfold create_loan, SqliteLoanRepository.create_loan.
  repeat case_match; simpl; try (apply table_evolves_refl, _);
    apply table_evolves_insert_fresh; apply _ || apply lastrowid_fresh.
Qed.

Lemma confirm_loan_updated now db i u :
  table_updated (loan_evolves now) (loans db) (loans (confirm_loan now db i u).2).
Proof.
  unfold confirm_loan, get_loan_by_id.
  destruct (loans db !! i) as [loan|] eqn:Hi; [|apply table_updated_refl, _].
  repeat case_bool_decide; try (apply table_updated_refl, _).
  repeat case_match; simpl; try (apply table_updated_refl, _).
  split; [|intros j; by rewrite lookup_alter_None].
  intros j l Hj. destruct (decide (i = j)) as [->|Hne].
  - rewrite Hi in Hj. injection Hj as <-.
    exists (Loan.set_active_at now loan). rewrite lookup_alter_eq, Hi.
    split; [done|]. apply confirm_evolves.
    by destruct (decide (status loan = pending)).
  - exists l. by rewrite lookup_alter_ne.
Qed.

Lemma repay_all_loans_updated now db b :
  table_updated (loan_evolves now) (loans db) (loans (repay_all_loans db b).2).
Proof.
  unfold repay_all_loans.
  destruct (users db !! b) as [row|]; [|apply table_updated_refl, _].
  destruct (coins row <=? 0); [apply table_updated_refl, _|].
  case_bool_decide; [apply table_updated_refl, _|].
  pose proof (repay_all_loop_updated now
    (sort_for_repay_all (select_owed (loans db) b))
    (users db) (loans db) 0 (coins row) []) as Hup.
  destruct (repay_all_loop _ _ _ _ _ _) as [[[[us ls] tot] rem] det]. simpl in *.
  eapply pass_updated; [apply _| |apply Hup].
  - apply fetched_sort, fetched_filter, fetched_table_rows.
  - apply Forall_sort, Forall_still_owed_filter. by intros r [_ ?].
Qed.

Lemma repay_loan_updated now db b l a :
  table_updated (loan_evolves now) (loans db) (loans (repay_loan db b l a).2).
Proof.
  unfold repay_loan.
  destruct (a <=? 0); [apply table_updated_refl, _|].
  destruct (users db !! b) as [row|]; [|apply table_updated_refl, _].
  destruct (coins row <? a); [apply table_updated_refl, _|].
  case_bool_decide; [apply table_updated_refl, _|].
  pose proof (repay_loop_updated now (select_owed_to (loans db) b l)
                (loans db) 0 [] a) as Hup.
  destruct (repay_loop _ _ _ _ _) as [[[ls tot] po] rem]. simpl in *.
  eapply pass_updated; [apply _| |apply Hup].
  - apply fetched_sort, fetched_filter, fetched_table_rows.
  - apply Forall_sort, Forall_still_owed_filter. by intros r (_ & _ & ?).
Qed.

Lemma force_collect_updated now db l b a :
  table_updated (loan_evolves now) (loans db) (loans (force_collect db l b a).2).
Proof.
  unfold force_collect.
  case_bool_decide; [apply table_updated_refl, _|].
  destruct (match a with Some _ => _ | None => _ end) as [amt|];
    [|apply table_updated_refl, _].
  destruct (SqliteUserRepository.get_by_id _ _) as [row|];
    [|apply table_updated_refl, _].
  destruct (_ <=? 0); [apply table_updated_refl, _|].
  pose proof (collect_loop_updated now
    (collect_order (get_active_loans_between_users (loans db) l b))
    (loans db) 0 [] (Z.min amt (coins row))) as Hup.
  destruct (collect_loop _ _ _ _ _) as [[[ls tot] po] rem]. simpl in *.
  assert (table_updated (loan_evolves now) (loans db) ls) as Hev.
  { eapply pass_updated; [apply _| |apply Hup].
    - apply fetched_sort, fetched_sort, fetched_filter, fetched_table_rows.
    - apply Forall_sort, Forall_sort, Forall_still_owed_filter.
      intros r (_ & _ & ?). by left. }
  destruct (_update_coins (users db) b (- tot)) as [us ok].
  destruct ok; simpl; [|done].
  destruct (_update_coins us l tot) as [us' ok']. by destruct ok'.
Qed.

Lemma borrow_from_system_evolves self now db b a :
  table_evolves (loan_evolves now) (loans db)
    (loans (borrow_from_system self now db b a).2).
Proof.
  unfold borrow_from_system, SqliteLoanRepository.create_loan.
  repeat case_match; simpl; try (apply table_evolves_refl, _);
    apply table_evolves_insert_fresh; apply _ || apply lastrowid_fresh.
Qed.

Lemma mark_overdue_pass now rows ls :
  fetched_from ls rows →
  table_updated (loan_evolves now) ls (mark_overdue now rows ls).1.
Proof.
  intros Hf. eapply pass_updated; [apply _|exact Hf|apply mark_overdue_updated].
Qed.

Lemma fetched_get_loans_by_borrower ls u st :
  fetched_from ls (get_loans_by_borrower ls u st).
Proof. apply fetched_sort, fetched_filter, fetched_table_rows. Qed.

Lemma fetched_get_loans_by_lender ls u st :
  fetched_from ls (get_loans_by_lender ls u st).
Proof. apply fetched_sort, fetched_filter, fetched_table_rows. Qed.

Lemma fetched_get_all_active_loans ls : fetched_from ls (get_all_active_loans ls).
Proof. apply fetched_sort, fetched_filter, fetched_table_rows. Qed.

Lemma get_all_loans_list_updated now db u :
  table_updated (loan_evolves now) (loans db)
    (loans (get_all_loans_list now db u).2).
Proof.
  unfold get_all_loans_list.
  match goal with |- context [mark_overdue now (take 20 ?rows) _] =>
    assert (fetched_from (loans db) rows) as Hf end.
  { destruct u as [u|]; [|apply fetched_get_all_active_loans].
    case_bool_decide; [apply fetched_get_all_active_loans|].
    apply fetched_sort.
    refine (proj1 (fetched_unique_loans _ _ _ _)).
    intros i l [Hin|Hin]%elem_of_app.
    - by apply (fetched_get_loans_by_lender (loans db) u (Some active)).
    - by apply (fetched_get_loans_by_borrower (loans db) u (Some active)). }
  match goal with |- context [mark_overdue now ?rows ?ls] =>
    pose proof (mark_overdue_pass now rows ls (fetched_take 20 _ _ Hf)) as Hev;
    destruct (mark_overdue now rows ls) as [ls' shown] end.
  exact Hev.
Qed.

Lemma check_user_overdue_status_updated now db u :
  table_updated (loan_evolves now) (loans db)
    (loans (check_user_overdue_status now db u).2).
Proof.
  unfold check_user_overdue_status.
  match goal with |- context [mark_overdue now ?rows ?ls] =>
    assert (fetched_from ls rows) as Hf
      by apply fetched_filter, fetched_get_loans_by_borrower;
    pose proof (mark_overdue_pass now rows ls Hf) as Hev;
    destruct (mark_overdue now rows ls) as [ls' marked] end.
  exact Hev.
Qed.

Lemma get_total_debt_updated now db u :
  table_updated (loan_evolves now) (loans db) (loans (get_total_debt now db u).2).
Proof.
  unfold get_total_debt. simpl.
  apply mark_overdue_pass, fetched_get_loans_by_borrower.
Qed.

(** The calls that insert no row. *)
Lemma run_updated self now c db :
  match c with CreateLoan _ _ _ _ | BorrowFromSystem _ _ => False | _ => True end →
  table_updated (loan_evolves now) (loans db) (loans (run self now c db)).
Proof.
  destruct c; simpl; intros []. 
  - apply confirm_loan_updated.
  - apply repay_all_loans_updated.
  - apply repay_loan_updated.
  - apply force_collect_updated.
  - apply get_all_loans_list_updated.
  - apply check_user_overdue_status_updated.
  - apply get_total_debt_updated.
Qed.

Lemma run_evolves self now c db :
  table_evolves (loan_evolves now) (loans db) (loans (run self now c db)).
Proof.
  destruct c; try (by apply run_updated).
  - apply create_loan_evolves.
  - apply borrow_from_system_evolves.
Qed.

End calls.

(** ** Claims *)

Section claims.
Import SqliteLoanRepository LoanService.

(** *** C7: repaid amounts *)

Lemma steps_evolve self allowed w w' i l :
  steps self allowed w w' →
  loans (tables w) !! i = Some l →
  ∃ l', loans (tables w') !! i = Some l'
        ∧ due_amount l' = due_amount l
        ∧ repaid_amount l ≤ repaid_amount l'
        ∧ (repaid_amount l ≤ due_amount l → repaid_amount l' ≤ due_amount l').
Proof.
  intros Hsteps. revert l.
  induction Hsteps as [w|w w1 w' Hstep _ IH]; intros l Hl.
  { exists l. split_and!; [done|done|lia|done]. }
  destruct Hstep as [w now c _ _].
  destruct (run_evolves self now c (tables w) i l Hl) as (l1 & Hl1 & Hev).
  destruct (IH l1 Hl1) as (l' & Hl' & Hdue & Hrep & Hbound).
  destruct Hev. exists l'. split_and!; [done|congruence|lia|].
  intros ?. apply Hbound. auto.
Qed.

(** C7: over any sequence of calls the [repaid_amount] of a stored loan never
    decreases, and a loan whose [repaid_amount] is at most its [due_amount]
    is never stored with a [repaid_amount] above it, whatever repayments and
    collections are made. *)
Theorem repaid_amount_monotone_bounded self w w' i l :
  steps self any_call w w' →
  loans (tables w) !! i = Some l →
  ∃ l', loans (tables w') !! i = Some l'
        ∧ repaid_amount l ≤ repaid_amount l'
        ∧ (repaid_amount l ≤ due_amount l → repaid_amount l' ≤ due_amount l').
Proof.
  intros Hsteps Hl.
  destruct (steps_evolve _ _ _ _ _ _ Hsteps Hl) as (l' & ? & _ & ? & ?).
  by exists l'.
Qed.

Lemma repaid_amount_monotone_bounded_witness :
  ∃ l', loans (run default_service (8 * day) (RepayLoan "bob" SYSTEM 300) db_overdue)
          !! 1 = Some l'
        ∧ repaid_amount overdue_system_loan ≤ repaid_amount l'
        ∧ (repaid_amount overdue_system_loan ≤ due_amount overdue_system_loan
           → repaid_amount l' ≤ due_amount l').
Proof.
  apply (repaid_amount_monotone_bounded default_service
           (mkWorld db_overdue (8 * day))
           (mkWorld (run default_service (8 * day) (RepayLoan "bob" SYSTEM 300)
                         db_overdue) (8 * day))
           1 overdue_system_loan).
  - apply rtc_once.
    apply (step_call default_service any_call (mkWorld db_overdue (8 * day))).
    + exact I.
    + simpl. lia.
  - vm_compute. reflexivity.
Defined.

(** *** C9: the amount due *)






(** *** C4: status transitions *)

(** C4 at the failing input: every call changes a status only along
    pending→active, active→paid, active→overdue, overdue→paid or
    overdue→active, and the last one does occur: a partial [repay_loan] on
    an overdue system loan stores it as ['active'], where [repay_all_loans]
    on the same state keeps it ['overdue']. *)
Theorem partial_repayment_reactivates_overdue :
  (∀ self now c db i l,
     loans db !! i = Some l →
     ∃ l', loans (run self now c db) !! i = Some l' ∧ status_step now l (status l'))
  ∧ loans db_overdue !! 1 = Some overdue_system_loan
  ∧ status overdue_system_loan = overdue
  ∧ (repay_loan db_overdue "bob" SYSTEM 300).1 = Ok (Repaid 300 [] (Some 750))
  ∧ loans (repay_loan db_overdue "bob" SYSTEM 300).2 !! 1
    = Some (Loan.set_repayment 300 active overdue_system_loan)
  ∧ loans (repay_all_loans db_overdue "bob").2 !! 1
    = Some (Loan.set_repayment 400 overdue overdue_system_loan).
Proof.
  split.
  { intros self now c db i l Hl.
    destruct (run_evolves self now c db i l Hl) as (l' & ? & []). by exists l'. }
  split_and!; vm_compute; reflexivity.
Qed.

(** *** C5: nothing owed *)

(** C5, as the code has it: with a positive balance and no loan owed,
    [repay_all_loans] returns success with the "no debt" message and changes
    nothing; with no loan owed to the chosen lender, [repay_loan] changes
    nothing either but returns the failure "no loan owed". *)
Theorem empty_candidates_replies :
  (∀ db b u,
     users db !! b = Some u → 0 < coins u →
     select_owed (loans db) b = [] →
     repay_all_loans db b = (Ok NoDebt, db))
  ∧ (∀ db b l amount u,
       0 < amount → users db !! b = Some u → amount ≤ coins u →
       select_owed_to (loans db) b l = [] →
       repay_loan db b l amount = (Err NoLoanOwed, db)).
Proof.
  split.
  - intros db b u Hu Hpos Hnone. unfold repay_all_loans. rewrite Hu, Hnone.
    destruct (coins u <=? 0) eqn:E; [lia|]. by rewrite bool_decide_eq_true_2.
  - intros db b l amount u Hamt Hu Hle Hnone. unfold repay_loan.
    rewrite Hu, Hnone.
    destruct (amount <=? 0) eqn:E1; [lia|].
    destruct (coins u <? amount) eqn:E2; [lia|].
    by rewrite bool_decide_eq_true_2.
Qed.

Lemma empty_candidates_replies_witness :
  repay_all_loans db_accounts "bob" = (Ok NoDebt, db_accounts)
  ∧ repay_loan db_accounts "bob" "alice" 100 = (Err NoLoanOwed, db_accounts).
Proof.
  destruct empty_candidates_replies as [Hall Hone]. split.
  - apply (Hall db_accounts "bob" (mkUser 400 10000)).
    + vm_compute. reflexivity.
    + simpl. lia.
    + vm_compute. reflexivity.
  - apply (Hone db_accounts "bob" "alice" 100 (mkUser 400 10000)).
    + lia.
    + vm_compute. reflexivity.
    + simpl. lia.
    + vm_compute. reflexivity.
Defined.

(** C5 as stated fails for the single-lender repayment: the candidate set is
    empty and the reply is a failure. *)
Lemma repay_loan_without_debt_fails :
  select_owed_to (loans db_accounts) "bob" "alice" = []
  ∧ repay_loan db_accounts "bob" "alice" 100 = (Err NoLoanOwed, db_accounts)
  ∧ ¬ ∃ m, (repay_loan db_accounts "bob" "alice" 100).1 = Ok m.
Proof.
  split_and!; [vm_compute; reflexivity..|].
  intros [m Hm]. vm_compute in Hm. discriminate.
Qed.

(** *** C6: a collection that fails *)


(** *** C10: the historical peak balance *)

Lemma disburse_lookup us lender borrower p bu :
  lender ≠ borrower → us !! borrower = Some bu →
  sql_raise_max_coins borrower (sql_credit p borrower (sql_debit p lender us))
    !! borrower
  = Some (mkUser (coins bu + p) (Z.max (max_coins bu) (coins bu + p))).
Proof.
  intros Hne Hb. unfold sql_raise_max_coins, sql_credit, sql_debit.
  rewrite !lookup_alter_eq, lookup_alter_ne, Hb by done. simpl.
  destruct (max_coins bu <? coins bu + p) eqn:E; f_equal; f_equal; lia.
Qed.






(** *** C2: the loans a payment or a collection walks *)

Global Instance oldest_first_trans : Transitive oldest_first.
Proof. unfold oldest_first. intros a b c. lia. Qed.

Lemma oldest_first_sorted (rows : list Row) :
  StronglySorted oldest_first
    (stable_sort (λ a b : Row, borrowed_at a.2 <=? borrowed_at b.2) rows).
Proof.
  apply stable_sort_sorted; [apply _|..]; unfold oldest_first; intros x y; lia.
Qed.

Lemma select_owed_to_spec ls b l :
  (∀ i x, (i, x) ∈ select_owed_to ls b l ↔ ls !! i = Some x ∧ owed_between l b x)
  ∧ NoDup (select_owed_to ls b l).*1
  ∧ StronglySorted oldest_first (select_owed_to ls b l).
Proof.
  unfold select_owed_to, order_by_borrowed_at_asc. split_and!.
  - intros i x. rewrite elem_of_stable_sort, list_elem_of_filter, elem_of_table_rows.
    unfold owed_between. simpl. tauto.
  - apply fetched_sort with (ls := ls), fetched_filter, fetched_table_rows.
  - apply oldest_first_sorted.
Qed.







(** *** C3: repaying everything *)





Lemma sumZ_cons a l : sumZ (a :: l) = a + sumZ l.
Proof. reflexivity. Qed.

Lemma allocate_zero rows : sumZ (allocate 0 rows) = 0 ∧ Forall (λ a, a = 0) (allocate 0 rows).
Proof.
  induction rows as [|[i l] rows [IH1 IH2]]; cbn [allocate snd]; [by split|].
  assert (Z.min 0 (Loan.remaining_amount l) = 0) as ->
    by (unfold Loan.remaining_amount; lia).
  rewrite Z.sub_0_r. simpl. split; [lia|by constructor].
Qed.

Lemma repay_all_loop_spec rows us ls tot rem det :
  0 ≤ rem → fetched_from ls rows →
  ∃ us' ls' det',
    repay_all_loop rows us ls tot rem det
    = (us', ls', tot + sumZ (allocate rem rows),
       rem - sumZ (allocate rem rows), det')
    ∧ (∀ k i l a, rows !! k = Some (i, l) → allocate rem rows !! k = Some a →
                  ls' !! i = Some (settle a l))
    ∧ (∀ i, i ∉ rows.*1 → ls' !! i = ls !! i).
Proof.
  revert us ls tot rem det.
  induction rows as [|[i l] rows IH]; intros us ls tot rem det Hrem [Hnd Hcur].
  { exists us, ls, det. simpl. split_and!; [|done..].
    repeat f_equal; lia. }
  rewrite fmap_cons in Hnd. apply NoDup_cons in Hnd as [Hi Hnd].
  assert (∀ j x, (j, x) ∈ rows → ls !! j = Some x) as Hcur'.
  { intros j x ?. apply Hcur. by right. }
  assert (ls !! i = Some l) as Hl by (apply Hcur; by left).
  cbn [repay_all_loop].
  destruct (rem <=? 0) eqn:Hbreak.
  { assert (rem = 0) as -> by lia.
    destruct (allocate_zero ((i, l) :: rows)) as [Hsum Hall].
    exists us, ls, det. rewrite Hsum. split_and!; [repeat f_equal; lia| |done].
    intros k j x a Hk Ha.
    eapply Forall_lookup_1 in Hall; [|exact Ha]. subst a.
    unfold settle. simpl. apply Hcur. eapply list_elem_of_lookup_2, Hk. }
  cbn [allocate snd].
  pose proof (Z.le_max_l 0 (due_amount l - repaid_amount l)) as Hdebt.
  fold (Loan.remaining_amount l) in Hdebt.
  destruct (Z.min rem (Loan.remaining_amount l) <=? 0) eqn:Hskip.
  - assert (Z.min rem (Loan.remaining_amount l) = 0) as -> by lia.
    rewrite Z.sub_0_r.
    destruct (IH us ls tot rem det Hrem (conj Hnd Hcur'))
      as (us' & ls' & det' & Heq & Hrows & Hframe).
    exists us', ls', det'. rewrite Heq. split_and!.
    + by rewrite sumZ_cons, Z.add_0_l.
    + intros [|k] j x a Hk Ha; simpl in *.
      * simplify_eq. unfold settle. simpl. rewrite Hframe; done.
      * eauto.
    + intros j Hj. apply Hframe. intros ?. apply Hj. rewrite fmap_cons. by right.
  - set (a := Z.min rem (Loan.remaining_amount l)) in *.
    set (ls1 := sql_update_loan _ _ i ls).
    assert (fetched_from ls1 rows) as Hf1.
    { split; [done|]. intros j x Hjx. unfold ls1, sql_update_loan.
      rewrite lookup_alter_ne; [by apply Hcur'|].
      intros ->. apply Hi. apply list_elem_of_fmap. by exists (j, x). }
    match goal with |- context [repay_all_loop rows ?us1 ls1 ?t ?r ?d] =>
      destruct (IH us1 ls1 t r d ltac:(lia) Hf1)
        as (us' & ls' & det' & Heq & Hrows & Hframe) end.
    exists us', ls', det'. rewrite Heq. split_and!.
    + by rewrite sumZ_cons, Z.add_assoc, Z.sub_add_distr.
    + intros [|k] j x a' Hk Ha; simpl in *.
      * simplify_eq. rewrite Hframe by done.
        unfold ls1, sql_update_loan. rewrite lookup_alter_eq, Hl. simpl.
        unfold settle.
        destruct (0 <? Z.min rem (Loan.remaining_amount x)) eqn:E; [done|lia].
      * eauto.
    + intros j Hj. rewrite Hframe.
      * unfold ls1, sql_update_loan. rewrite lookup_alter_ne; [done|].
        intros ->. apply Hj. rewrite fmap_cons. by left.
      * intros ?. apply Hj. rewrite fmap_cons. by right.
Qed.




(** *** C1: conservation *)


Lemma collect_loop_total rows ls tot po rem :
  0 ≤ rem →
  ∃ ls' po' rem',
    collect_loop rows ls tot po rem = (ls', tot + (rem - rem'), po', rem')
    ∧ 0 ≤ rem' ≤ rem.
Proof.
  revert ls tot po rem.
  induction rows as [|[i l] rows IH]; intros ls tot po rem Hrem; cbn [collect_loop].
  { exists ls, po, rem. split; [repeat f_equal|]; lia. }
  destruct (rem <=? 0) eqn:Hbreak.
  { exists ls, po, rem. split; [repeat f_equal|]; lia. }
  pose proof (Z.le_max_l 0 (due_amount l - repaid_amount l)) as Hdebt.
  fold (Loan.remaining_amount l) in Hdebt.
  match goal with |- context [collect_loop rows ?ls1 ?t ?p ?r] =>
    destruct (IH ls1 t p r ltac:(lia)) as (ls' & po' & rem' & Heq & Hle) end.
  exists ls', po', rem'. rewrite Heq. split; [do 3 f_equal|]; lia.
Qed.







Lemma update_coins_spec us x a :
  _update_coins us x a
  = match us !! x with
    | None => (us, false)
    | Some u => (<[x := mkUser (Z.max 0 (coins u + a)) (max_coins u)]> us, true)
    end.
Proof.
  unfold _update_coins, SqliteUserRepository.get_by_id, SqliteUserRepository.update.
  destruct (us !! x) as [u|]; [|done].
  do 3 f_equal. case_match; lia.
Qed.





(** *** C8: one outstanding system loan per borrower *)

Lemma past_due_mono t t' l : past_due t l → t ≤ t' → past_due t' l.
Proof. unfold past_due. destruct (due_date l); [lia|done]. Qed.


Lemma has_overdue_system_loan_false now ls b i l :
  has_overdue_system_loan now ls b = false →
  ls !! i = Some l → outstanding_system_loan b l → ¬ past_due now l.
Proof.
  unfold has_overdue_system_loan. intros Hfalse Hl (Hlender & Hb & Hst) Hpast.
  apply bool_decide_eq_false in Hfalse.
  assert ((i, l) ∈ filter (λ r : Row, lender_id r.2 = SYSTEM ∧ borrower_id r.2 = b
                                      ∧ (status r.2 = active ∨ status r.2 = overdue)
                                      ∧ past_due now r.2) (table_rows ls)) as Hin.
  { apply list_elem_of_filter. by rewrite elem_of_table_rows. }
  destruct (filter _ _) as [|r rows]; [by apply elem_of_nil in Hin|].
  apply Hfalse. simpl. lia.
Qed.












(** *** The two scenarios of the specification *)

(** With balance 500, "repay everything" puts 300 on the system loan, which
    is then paid, and 200 on the peer loan, of which 200 remain; the
    borrower is left with nothing. *)
Example settlement_scenario :
  (repay_all_loans db_settlement "bob").1
  = Ok (RepaidAll 500 0 [(1, SYSTEM, 300); (2, "alice", 200)])
  ∧ (λ l, (repaid_amount l, status l))
      <$> loans (repay_all_loans db_settlement "bob").2 !! 1 = Some (300, paid)
  ∧ Loan.remaining_amount
      <$> loans (repay_all_loans db_settlement "bob").2 !! 2 = Some 200
  ∧ coins_of (users (repay_all_loans db_settlement "bob").2) "bob" = Some 0
  ∧ coins_of (users (repay_all_loans db_settlement "bob").2) "alice" = Some 200.
Proof. split_and!; vm_compute; reflexivity. Qed.

(** Asked to collect 1000 from a balance of 150, the collection takes 150,
    leaves 850 owed and reports the shortfall. *)
Example shortfall_scenario :
  (force_collect db_shortfall "alice" "bob" (Some 1000)).1
  = Ok (Collected 150 [] (Some 850) (Some (150, 1000)))
  ∧ coins_of (users (force_collect db_shortfall "alice" "bob" (Some 1000)).2) "bob"
    = Some 0
  ∧ coins_of (users (force_collect db_shortfall "alice" "bob" (Some 1000)).2) "alice"
    = Some 150.
Proof. split_and!; vm_compute; reflexivity. Qed.

End claims.

(** ** Further properties of the code *)

Section extras.
Import SqliteLoanRepository LoanService.

(** *** The repository *)





Global Instance newest_first_trans : Transitive newest_first.
Proof. unfold newest_first. intros a b c. lia. Qed.

Lemma newest_first_sorted (rows : list Row) :
  StronglySorted newest_first (order_by_borrowed_at_desc rows).
Proof.
  apply stable_sort_sorted; [apply _|..]; unfold newest_first; intros x y; lia.
Qed.

Lemma desc_filter_spec (P : Row → Prop) `{!∀ r, Decision (P r)} ls :
  (∀ i l, (i, l) ∈ order_by_borrowed_at_desc (filter P (table_rows ls))
          ↔ ls !! i = Some l ∧ P (i, l))
  ∧ NoDup (order_by_borrowed_at_desc (filter P (table_rows ls))).*1
  ∧ StronglySorted newest_first
      (order_by_borrowed_at_desc (filter P (table_rows ls))).
Proof.
  split_and!.
  - intros i l. unfold order_by_borrowed_at_desc.
    rewrite elem_of_stable_sort, list_elem_of_filter, elem_of_table_rows. tauto.
  - apply fetched_sort with (ls := ls), fetched_filter, fetched_table_rows.
  - apply newest_first_sorted.
Qed.

(** X3: the list queries of the repository return exactly the stored rows
    that match (by lender and optional status, by borrower and optional
    status, by status ['active'], by pair and status ['active']), each row
    once, the newest [borrowed_at] first. *)
Theorem list_queries_exact_newest_first (ls : gmap Z Loan) :
  (∀ u st,
     (∀ i l, (i, l) ∈ get_loans_by_lender ls u st
             ↔ ls !! i = Some l ∧ lender_id l = u ∧ status_is st l)
     ∧ NoDup (get_loans_by_lender ls u st).*1
     ∧ StronglySorted newest_first (get_loans_by_lender ls u st))
  ∧ (∀ u st,
       (∀ i l, (i, l) ∈ get_loans_by_borrower ls u st
               ↔ ls !! i = Some l ∧ borrower_id l = u ∧ status_is st l)
       ∧ NoDup (get_loans_by_borrower ls u st).*1
       ∧ StronglySorted newest_first (get_loans_by_borrower ls u st))
  ∧ ((∀ i l, (i, l) ∈ get_all_active_loans ls
             ↔ ls !! i = Some l ∧ status l = active)
     ∧ NoDup (get_all_active_loans ls).*1
     ∧ StronglySorted newest_first (get_all_active_loans ls))
  ∧ (∀ lender borrower,
       (∀ i l, (i, l) ∈ get_active_loans_between_users ls lender borrower
               ↔ ls !! i = Some l ∧ active_between lender borrower l)
       ∧ NoDup (get_active_loans_between_users ls lender borrower).*1
       ∧ StronglySorted newest_first
           (get_active_loans_between_users ls lender borrower)).
Proof.
  split; [|split; [|split]].
  - intros u st.
    apply (desc_filter_spec (λ r : Row, lender_id r.2 = u ∧ status_is st r.2)).
  - intros u st.
    apply (desc_filter_spec (λ r : Row, borrower_id r.2 = u ∧ status_is st r.2)).
  - apply (desc_filter_spec (λ r : Row, status r.2 = active)).
  - intros lender borrower.
    apply (desc_filter_spec
             (λ r : Row, lender_id r.2 = lender ∧ borrower_id r.2 = borrower
                         ∧ status r.2 = active)).
Qed.

(** X4: [get_active_system_loan] returns a stored active system loan of the
    borrower that no other such loan is newer than, and returns nothing
    exactly when the borrower has no active system loan. *)
Theorem get_active_system_loan_newest (ls : gmap Z Loan) (b : string) :
  match get_active_system_loan ls b with
  | Some r =>
      ls !! r.1 = Some r.2 ∧ active_between SYSTEM b r.2
      ∧ ∀ j l, ls !! j = Some l → active_between SYSTEM b l →
               borrowed_at l ≤ borrowed_at r.2
  | None => ∀ j l, ls !! j = Some l → ¬ active_between SYSTEM b l
  end.
Proof.
  unfold get_active_system_loan.
  destruct (desc_filter_spec
              (λ r : Row, lender_id r.2 = SYSTEM ∧ borrower_id r.2 = b
                          ∧ status r.2 = active) ls) as (Hin & _ & Hsorted).
  destruct (order_by_borrowed_at_desc _) as [|[i x] rows] eqn:E; simpl.
  - intros j l Hl Hact. by apply (elem_of_nil (j, l)), Hin.
  - destruct (proj1 (Hin i x)) as [Hx Hact]; [by left|].
    split_and!; [done|done|].
    intros j l Hl Hactl.
    assert ((j, l) ∈ (i, x) :: rows) as Hjl by by apply Hin.
    apply elem_of_cons in Hjl as [[= -> ->]|Hjl]; [done|].
    apply StronglySorted_inv in Hsorted as [_ Hall].
    rewrite Forall_forall in Hall. by apply (Hall (j, l)).
Qed.

(** X5: [has_overdue_system_loan] answers true exactly when the borrower has
    a stored system loan of status ['active'] or ['overdue'] whose due date
    lies before the time of the call; once true it stays true at every later
    time while the table is unchanged. *)
Theorem has_overdue_system_loan_exact (ls : gmap Z Loan) (b : string) :
  (∀ now, has_overdue_system_loan now ls b = true
          ↔ ∃ i l, ls !! i = Some l ∧ outstanding_system_loan b l ∧ past_due now l)
  ∧ (∀ now now', now ≤ now' →
       has_overdue_system_loan now ls b = true →
       has_overdue_system_loan now' ls b = true).
Proof.
  assert (∀ now, has_overdue_system_loan now ls b = true
          ↔ ∃ i l, ls !! i = Some l ∧ outstanding_system_loan b l ∧ past_due now l)
    as Hiff.
  { intros now. split.
    - unfold has_overdue_system_loan. intros Hlen%bool_decide_eq_true.
      destruct (filter _ _) as [|[i l] rows] eqn:E; [simpl in Hlen; lia|].
      assert ((i, l) ∈ (i, l) :: rows) as Hin by by left.
      rewrite <- E in Hin.
      apply list_elem_of_filter in Hin as [(? & ? & ? & ?) Hin].
      apply elem_of_table_rows in Hin. exists i, l.
      unfold outstanding_system_loan. auto.
    - intros (i & l & Hl & Hout & Hpast).
      destruct (has_overdue_system_loan now ls b) eqn:E; [done|].
      exfalso. by eapply has_overdue_system_loan_false. }
  split; [exact Hiff|].
  intros now now' Hle (i & l & Hl & Hout & Hpast)%Hiff.
  apply Hiff. exists i, l. split_and!; [done|done|].
  by eapply past_due_mono.
Qed.

Lemma has_overdue_system_loan_exact_witness :
  has_overdue_system_loan (8 * day) (loans db_overdue) "bob" = true.
Proof.
  apply (proj2 (has_overdue_system_loan_exact (loans db_overdue) "bob")
           (7 * day + 1) (8 * day)).
  - vm_compute. discriminate.
  - vm_compute. reflexivity.
Defined.

(** *** The domain model and [_update_coins] *)

(** X6: what is still owed on a loan is never negative and is zero exactly
    when [is_paid_off] holds; writing a repayment of [a], at most what is
    still owed, lowers it by exactly [a], and a repayment of at least what
    is still owed makes the loan paid off. *)
Theorem remaining_amount_accounting (l : Loan) :
  0 ≤ Loan.remaining_amount l
  ∧ (Loan.remaining_amount l = 0 ↔ Loan.is_paid_off l = true)
  ∧ (∀ a st, 0 ≤ a ≤ Loan.remaining_amount l →
       Loan.remaining_amount (Loan.set_repayment (repaid_amount l + a) st l)
       = Loan.remaining_amount l - a)
  ∧ (∀ a st, Loan.remaining_amount l ≤ a →
       Loan.is_paid_off (Loan.set_repayment (repaid_amount l + a) st l) = true).
Proof.
  unfold Loan.remaining_amount, Loan.is_paid_off. simpl. split_and!.
  - lia.
  - rewrite Z.leb_le. lia.
  - intros a _ Ha. lia.
  - intros a _ Ha. apply Z.leb_le. lia.
Qed.

(** X7: [_update_coins] fails, changing nothing, exactly when the account is
    missing.  Taking [a] from an account and giving [a] back leaves the
    larger of the old balance and [a]: the table is as before when the
    balance covered [a], and the account has gained otherwise. *)
Theorem update_coins_round_trip (us : gmap string User) (x : string) (a : Z) :
  (us !! x = None → _update_coins us x a = (us, false))
  ∧ (∀ u, us !! x = Some u → 0 ≤ coins u → 0 ≤ a →
       (_update_coins us x (- a)).2 = true
       ∧ (_update_coins (_update_coins us x (- a)).1 x a).2 = true
       ∧ (_update_coins (_update_coins us x (- a)).1 x a).1 !! x
         = Some (mkUser (Z.max (coins u) a) (max_coins u))
       ∧ (a ≤ coins u → (_update_coins (_update_coins us x (- a)).1 x a).1 = us)).
Proof.
  split.
  - intros Hx. by rewrite update_coins_spec, Hx.
  - intros u Hx Hu Ha. rewrite !update_coins_spec, Hx. cbn [fst snd].
    rewrite lookup_insert_eq. cbn [fst snd coins max_coins].
    split_and!; [done|done|..].
    + rewrite lookup_insert_eq. do 2 f_equal. lia.
    + intros Hle. apply map_eq. intros y.
      destruct (decide (x = y)) as [<-|].
      * rewrite lookup_insert_eq, Hx. destruct u as [c m]. simpl in *.
        do 2 f_equal. lia.
      * by rewrite !lookup_insert_ne.
Qed.

Lemma update_coins_round_trip_witness :
  _update_coins (users db_accounts) "carol" 10 = (users db_accounts, false)
  ∧ (_update_coins (users db_accounts) "bob" (- 100)).2 = true
  ∧ (_update_coins (_update_coins (users db_accounts) "bob" (- 100)).1 "bob" 100).2
    = true
  ∧ (_update_coins (_update_coins (users db_accounts) "bob" (- 100)).1 "bob" 100).1
      !! "bob"
    = Some (mkUser (Z.max 400 100) 10000)
  ∧ (100 ≤ 400 →
     (_update_coins (_update_coins (users db_accounts) "bob" (- 100)).1 "bob" 100).1
     = users db_accounts).
Proof.
  split.
  - apply (proj1 (update_coins_round_trip (users db_accounts) "carol" 10)).
    vm_compute. reflexivity.
  - apply (proj2 (update_coins_round_trip (users db_accounts) "bob" 100)
             (mkUser 400 10000)).
    + vm_compute. reflexivity.
    + simpl. lia.
    + lia.
Defined.

(** *** Calls that fail *)


(** X9: [force_collect] never reports a failed debit, since the borrower's
    account was read just before.  When it reports failure, the accounts are
    exactly as before the call, also after the reversal that follows a failed
    credit; the loan table too is as before unless the credit failed, which
    happens only when the lender has no account. *)
Theorem force_collect_failure (db : DB) (l b : string) (amount : option Z) :
  (force_collect db l b amount).1 ≠ Err DebitFailed
  ∧ (force_collect db l b amount).1 ≠ Raised
  ∧ (failed (force_collect db l b amount).1 →
     users (force_collect db l b amount).2 = users db
     ∧ ((force_collect db l b amount).1 ≠ Err CreditFailed →
        (force_collect db l b amount).2 = db)
     ∧ ((force_collect db l b amount).1 = Err CreditFailed →
        users db !! l = None)).
Proof.
  unfold force_collect, SqliteUserRepository.get_by_id.
  case_bool_decide; [by simpl|].
  destruct (match amount with Some _ => _ | None => _ end) as [amt|];
    [|by simpl].
  destruct (users db !! b) as [bu|] eqn:Hb; [|by simpl].
  destruct (_ <=? 0) eqn:Hact; [by simpl|].
  destruct (collect_loop_total
              (collect_order (get_active_loans_between_users (loans db) l b))
              (loans db) 0 [] (Z.min amt (coins bu)))
    as (ls' & po' & rem' & Heq & Hle); [lia|].
  rewrite Heq, !update_coins_spec, Hb. cbn [negb].
  rewrite update_coins_spec.
  destruct (decide (b = l)) as [<-|Hne].
  { rewrite lookup_insert_eq. simpl. split_and!; done. }
  rewrite lookup_insert_ne by done.
  destruct (users db !! l) as [lu|] eqn:Hl; cbn [negb]; [by simpl|].
  rewrite update_coins_spec, lookup_insert_eq. cbn [fst snd users coins max_coins].
  split_and!; [done|done|]. intros _. split_and!; [|done|done].
  apply map_eq. intros y. destruct (decide (b = y)) as [<-|].
  - rewrite lookup_insert_eq, Hb. destruct bu as [c m]. simpl in *.
    do 2 f_equal. lia.
  - by rewrite !lookup_insert_ne.
Qed.

Lemma force_collect_failure_witness :
  users (force_collect db_orphan "carol" "bob" None).2 = users db_orphan
  ∧ ((force_collect db_orphan "carol" "bob" None).1 ≠ Err CreditFailed →
     (force_collect db_orphan "carol" "bob" None).2 = db_orphan)
  ∧ ((force_collect db_orphan "carol" "bob" None).1 = Err CreditFailed →
     users db_orphan !! "carol" = None).
Proof.
  apply (proj2 (proj2 (force_collect_failure db_orphan "carol" "bob" None))).
  vm_compute. exact I.
Defined.

(** *** Loans between players: request and confirmation *)

(** X10: a successful [create_loan] with a lender other than the system is a
    request only: the parties differ, the principal is positive, no account
    is read or changed, and the loan is stored under a key not in use, as
    pending, with nothing repaid, no due date and the amount due computed
    from the principal and the rate at the time of the request. *)
Theorem loan_request_moves_no_coins self now db l b p r m db' :
  l ≠ SYSTEM →
  create_loan self now db l b p r = (Ok m, db') →
  ∃ i due,
    m = LoanRequested i ∧ l ≠ b ∧ 0 < p
    ∧ due_amount_for p (default (default_interest_rate self) r) = Some due
    ∧ users db' = users db
    ∧ loans db !! i = None
    ∧ loans db'
      = <[i := mkLoan l b p (default (default_interest_rate self) r) now due 0
                      pending None]> (loans db).
Proof.
  intros Hl. unfold create_loan, SqliteLoanRepository.create_loan.
  case_bool_decide as Hlb; [discriminate|].
  destruct (p <=? 0) eqn:Hp; [discriminate|].
  destruct (due_amount_for _ _) as [due|] eqn:Hdue; [|discriminate].
  rewrite !(bool_decide_eq_true_2 (l ≠ SYSTEM)) by done.
  intros [= <- <-]. exists (lastrowid (loans db)), due. simpl.
  split_and!; try done; [lia|apply lastrowid_fresh].
Qed.

Lemma loan_request_moves_no_coins_witness :
  ∃ i due,
    LoanRequested 1 = LoanRequested i ∧ "bob" ≠ "alice" ∧ 0 < 100
    ∧ due_amount_for 100 (default (default_interest_rate default_service) None)
      = Some due
    ∧ users (create_loan default_service 5 db_accounts "bob" "alice" 100 None).2
      = users db_accounts
    ∧ loans db_accounts !! i = None
    ∧ loans (create_loan default_service 5 db_accounts "bob" "alice" 100 None).2
      = <[i := mkLoan "bob" "alice" 100
                      (default (default_interest_rate default_service) None)
                      5 due 0 pending None]> (loans db_accounts).
Proof.
  apply (loan_request_moves_no_coins default_service 5 db_accounts
           "bob" "alice" 100 None).
  - discriminate.
  - vm_compute. reflexivity.
Defined.

Lemma transfer_lookup_lender us lender borrower p lu :
  lender ≠ borrower → us !! lender = Some lu → p ≤ coins lu →
  sql_raise_max_coins borrower (sql_credit p borrower (sql_debit p lender us))
    !! lender
  = Some (mkUser (coins lu - p) (max_coins lu)).
Proof.
  intros Hne Hl Hp. unfold sql_raise_max_coins, sql_credit, sql_debit.
  rewrite !lookup_alter_ne, lookup_alter_eq, Hl by done. simpl.
  do 2 f_equal. lia.
Qed.

Lemma transfer_lookup_other us lender borrower p x :
  x ≠ lender → x ≠ borrower →
  sql_raise_max_coins borrower (sql_credit p borrower (sql_debit p lender us)) !! x
  = us !! x.
Proof.
  intros ? ?. unfold sql_raise_max_coins, sql_credit, sql_debit.
  by rewrite !lookup_alter_ne.
Qed.

Lemma transfer_coins_borrower us lender borrower p :
  lender ≠ borrower →
  coins_of (sql_raise_max_coins borrower
              (sql_credit p borrower (sql_debit p lender us))) borrower
  = (λ c, c + p) <$> coins_of us borrower.
Proof.
  intros Hne. unfold coins_of.
  destruct (us !! borrower) as [bu|] eqn:Hb.
  - by rewrite (disburse_lookup _ _ _ _ bu).
  - unfold sql_raise_max_coins, sql_credit, sql_debit.
    by rewrite !lookup_alter_eq, lookup_alter_ne, Hb.
Qed.

(** X11: a successful [confirm_loan] was called by the borrower of a stored
    pending loan whose lender has an account holding at least the principal.
    It rewrites that loan alone, to active with [borrowed_at] the time of
    the confirmation; it takes exactly the principal from the lender, adds it
    to the borrower's balance if the borrower has an account (none is
    required), and leaves every other account. *)
Theorem confirm_loan_effect now db i u m db' :
  confirm_loan now db i u = (Ok m, db') →
  ∃ loan lu,
    loans db !! i = Some loan ∧ status loan = pending ∧ borrower_id loan = u
    ∧ m = Confirmed (principal loan)
    ∧ users db !! lender_id loan = Some lu ∧ principal loan ≤ coins lu
    ∧ loans db' = <[i := Loan.set_active_at now loan]> (loans db)
    ∧ (lender_id loan ≠ u →
       users db' !! lender_id loan
       = Some (mkUser (coins lu - principal loan) (max_coins lu))
       ∧ coins_of (users db') u
         = (λ c, c + principal loan) <$> coins_of (users db) u)
    ∧ (∀ x, x ≠ lender_id loan → x ≠ u → users db' !! x = users db !! x).
Proof.
  unfold confirm_loan, get_loan_by_id.
  destruct (loans db !! i) as [loan|] eqn:Hi; [|discriminate].
  case_bool_decide as Hb; [discriminate|].
  case_bool_decide as Hst; [discriminate|].
  destruct (users db !! lender_id loan) as [lu|] eqn:Hl; [|discriminate].
  destruct (coins lu <? principal loan) eqn:Hp; [discriminate|].
  intros [= <- <-]. exists loan, lu. cbn [users loans].
  split_and!; try done; [lia| | |].
  - apply map_eq. intros j. destruct (decide (i = j)) as [<-|].
    + by rewrite lookup_alter_eq, lookup_insert_eq, Hi.
    + by rewrite lookup_alter_ne, lookup_insert_ne.
  - intros Hne. rewrite Hb. split.
    + apply transfer_lookup_lender; [done|done|lia].
    + by apply transfer_coins_borrower.
  - intros x ? ?. rewrite Hb. by apply transfer_lookup_other.
Qed.

Lemma confirm_loan_effect_witness :
  ∃ loan lu,
    loans db_pending !! 1 = Some loan ∧ status loan = pending
    ∧ borrower_id loan = "bob"
    ∧ Confirmed 1000 = Confirmed (principal loan)
    ∧ users db_pending !! lender_id loan = Some lu ∧ principal loan ≤ coins lu
    ∧ loans (confirm_loan 9 db_pending 1 "bob").2
      = <[1 := Loan.set_active_at 9 loan]> (loans db_pending)
    ∧ (lender_id loan ≠ "bob" →
       users (confirm_loan 9 db_pending 1 "bob").2 !! lender_id loan
       = Some (mkUser (coins lu - principal loan) (max_coins lu))
       ∧ coins_of (users (confirm_loan 9 db_pending 1 "bob").2) "bob"
         = (λ c, c + principal loan) <$> coins_of (users db_pending) "bob")
    ∧ (∀ x, x ≠ lender_id loan → x ≠ "bob" →
         users (confirm_loan 9 db_pending 1 "bob").2 !! x
         = users db_pending !! x).
Proof.
  apply (confirm_loan_effect 9 db_pending 1 "bob" (Confirmed 1000)).
  vm_compute. reflexivity.
Defined.

(** X12: a loan is confirmed once: after a successful [confirm_loan], every
    further [confirm_loan] of the same loan, by whomever and whenever, fails
    and changes nothing; called again by the borrower it reports that the
    loan is active. *)
Theorem confirm_loan_only_once now db i u m db' :
  confirm_loan now db i u = (Ok m, db') →
  ∀ now' u',
    failed (confirm_loan now' db' i u').1
    ∧ (confirm_loan now' db' i u').2 = db'
    ∧ confirm_loan now' db' i u = (Err (NotPending active), db').
Proof.
  unfold confirm_loan at 1. unfold get_loan_by_id.
  destruct (loans db !! i) as [loan|] eqn:Hi; [|discriminate].
  case_bool_decide as Hb; [discriminate|].
  case_bool_decide as Hst; [discriminate|].
  destruct (users db !! lender_id loan) as [lu|]; [|discriminate].
  destruct (coins lu <? principal loan); [discriminate|].
  intros [= <- <-] now' u'. unfold confirm_loan, get_loan_by_id. cbn [loans].
  rewrite lookup_alter_eq, Hi. cbn [fmap option_fmap option_map].
  cbn [Loan.set_active_at borrower_id status].
  rewrite (bool_decide_eq_false_2 (borrower_id loan ≠ u)) by (by intros []).
  rewrite (bool_decide_eq_true_2 (active ≠ pending)) by done.
  split_and!; [|by case_bool_decide|done].
  by case_bool_decide.
Qed.

Lemma confirm_loan_only_once_witness :
  failed (confirm_loan 20 (confirm_loan 9 db_pending 1 "bob").2 1 "alice").1
  ∧ (confirm_loan 20 (confirm_loan 9 db_pending 1 "bob").2 1 "alice").2
    = (confirm_loan 9 db_pending 1 "bob").2
  ∧ confirm_loan 20 (confirm_loan 9 db_pending 1 "bob").2 1 "bob"
    = (Err (NotPending active), (confirm_loan 9 db_pending 1 "bob").2).
Proof.
  apply (confirm_loan_only_once 9 db_pending 1 "bob" (Confirmed 1000)).
  vm_compute. reflexivity.
Defined.



(** *** How much a repayment or a collection applies *)

Lemma total_remaining_cons (r : Row) (rows : list Row) :
  total_remaining (r :: rows) = Loan.remaining_amount r.2 + total_remaining rows.
Proof. done. Qed.

Lemma total_remaining_nonneg (rows : list Row) : 0 ≤ total_remaining rows.
Proof.
  induction rows as [|r rows IH]; [done|].
  rewrite total_remaining_cons. unfold Loan.remaining_amount at 1. lia.
Qed.

Lemma total_remaining_perm (rows rows' : list Row) :
  rows ≡ₚ rows' → total_remaining rows = total_remaining rows'.
Proof.
  induction 1 as [|r ? ? ? IH|r r' ?|]; [done|..].
  - rewrite !total_remaining_cons. lia.
  - rewrite !total_remaining_cons. lia.
  - congruence.
Qed.

Lemma total_remaining_zero (rows : list Row) :
  Forall (λ r : Row, Loan.remaining_amount r.2 = 0) rows → total_remaining rows = 0.
Proof.
  induction 1 as [|r rows Hr _ IH]; [done|].
  rewrite total_remaining_cons. lia.
Qed.

Lemma repay_loop_sum rows ls tot po rem :
  0 ≤ rem →
  (repay_loop rows ls tot po rem).1.1.2 = tot + Z.min rem (total_remaining rows).
Proof.
  revert ls tot po rem.
  induction rows as [|[i l] rows IH]; intros ls tot po rem Hrem; cbn [repay_loop].
  { simpl. unfold total_remaining. simpl. lia. }
  pose proof (total_remaining_nonneg rows) as Hrest.
  pose proof (total_remaining_nonneg [(i, l)]) as Hl.
  rewrite total_remaining_cons in Hl |- *. cbn [snd] in *.
  change (total_remaining []) with 0 in Hl.
  destruct (rem <=? 0) eqn:Hbreak; [simpl; lia|].
  rewrite IH by lia. lia.
Qed.

Lemma collect_loop_sum rows ls tot po rem :
  0 ≤ rem →
  (collect_loop rows ls tot po rem).1.1.2 = tot + Z.min rem (total_remaining rows).
Proof.
  revert ls tot po rem.
  induction rows as [|[i l] rows IH]; intros ls tot po rem Hrem; cbn [collect_loop].
  { simpl. unfold total_remaining. simpl. lia. }
  pose proof (total_remaining_nonneg rows) as Hrest.
  pose proof (total_remaining_nonneg [(i, l)]) as Hl.
  rewrite total_remaining_cons in Hl |- *. cbn [snd] in *.
  change (total_remaining []) with 0 in Hl.
  destruct (rem <=? 0) eqn:Hbreak; [simpl; lia|].
  rewrite IH by lia. lia.
Qed.

Lemma allocate_sum funds rows :
  0 ≤ funds → sumZ (allocate funds rows) = Z.min funds (total_remaining rows).
Proof.
  revert funds. induction rows as [|r rows IH]; intros funds Hfunds.
  { simpl. unfold total_remaining. simpl. lia. }
  pose proof (total_remaining_nonneg rows) as Hrest.
  pose proof (total_remaining_nonneg [r]) as Hr.
  rewrite total_remaining_cons in Hr |- *.
  change (total_remaining []) with 0 in Hr.
  cbn [allocate]. rewrite sumZ_cons, IH by lia. lia.
Qed.

Lemma allocate_full funds rows k r a :
  total_remaining rows ≤ funds →
  rows !! k = Some r → allocate funds rows !! k = Some a →
  a = Loan.remaining_amount r.2.
Proof.
  revert funds k. induction rows as [|r' rows IH]; intros funds k Hfunds; [done|].
  pose proof (total_remaining_nonneg rows) as Hrest.
  pose proof (total_remaining_nonneg [r']) as Hr.
  rewrite total_remaining_cons in Hr, Hfunds.
  change (total_remaining []) with 0 in Hr.
  cbn [allocate]. destruct k as [|k]; simpl.
  - intros [= <-] [= <-]. lia.
  - apply IH. lia.
Qed.

(** The loop of [repay_loan] when the amount exceeds what the rows owe. *)
Lemma repay_loop_clears rows ls tot po rem :
  total_remaining rows < rem → fetched_from ls rows →
  ∃ ls',
    repay_loop rows ls tot po rem
    = (ls', tot + total_remaining rows, po ++ rows.*1, rem - total_remaining rows)
    ∧ (∀ i l, (i, l) ∈ rows →
         ls' !! i = Some (Loan.set_repayment
                            (repaid_amount l + Loan.remaining_amount l) paid l))
    ∧ (∀ i, i ∉ rows.*1 → ls' !! i = ls !! i).
Proof.
  revert ls tot po rem.
  induction rows as [|[i l] rows IH]; intros ls tot po rem Hrem [Hnd Hcur].
  { exists ls. simpl. rewrite app_nil_r. unfold total_remaining. simpl.
    split_and!; [repeat f_equal; lia| |done].
    intros ? ? Hin. by apply elem_of_nil in Hin. }
  rewrite fmap_cons in Hnd. apply NoDup_cons in Hnd as [Hi Hnd].
  assert (ls !! i = Some l) as Hl by (apply Hcur; by left).
  pose proof (total_remaining_nonneg rows) as Hrest.
  pose proof (total_remaining_nonneg [(i, l)]) as Hdebt.
  rewrite total_remaining_cons in Hdebt, Hrem. cbn [snd] in *.
  change (total_remaining []) with 0 in Hdebt.
  cbn [repay_loop]. destruct (rem <=? 0) eqn:Hbreak; [lia|].
  rewrite Z.min_r by lia.
  assert ((due_amount l <=? repaid_amount l + Loan.remaining_amount l) = true)
    as -> by (apply Z.leb_le; unfold Loan.remaining_amount; lia).
  rewrite (bool_decide_eq_true_2 (paid = paid)) by done.
  set (ls1 := sql_update_loan _ _ i ls).
  assert (fetched_from ls1 rows) as Hf1.
  { split; [done|]. intros j x Hjx. unfold ls1, sql_update_loan.
    rewrite lookup_alter_ne; [apply Hcur; by right|].
    intros ->. apply Hi. apply list_elem_of_fmap. by exists (j, x). }
  destruct (IH ls1 (tot + Loan.remaining_amount l) (po ++ [i])
              (rem - Loan.remaining_amount l) ltac:(lia) Hf1)
    as (ls' & Heq & Hrows & Hframe).
  exists ls'. rewrite Heq. split_and!.
  - rewrite total_remaining_cons, fmap_cons, <- app_assoc. cbn [snd fst app].
    by rewrite Z.add_assoc, Z.sub_add_distr.
  - intros j x [[= -> ->]|Hin]%elem_of_cons; [|by apply Hrows].
    rewrite Hframe by done. unfold ls1, sql_update_loan.
    by rewrite lookup_alter_eq, Hl.
  - intros j Hj. rewrite fmap_cons in Hj. apply not_elem_of_cons in Hj as [? ?].
    rewrite Hframe by done. unfold ls1, sql_update_loan.
    by rewrite lookup_alter_ne.
Qed.

(** With no loan owed between the pair, every query for one is empty. *)
Lemma no_owed_between ls lender borrower :
  (∀ j y, ls !! j = Some y → ¬ owed_between lender borrower y) →
  select_owed_to ls borrower lender = []
  ∧ get_active_loans_between_users ls lender borrower = []
  ∧ get_active_system_loan ls borrower
    = (if decide (lender = SYSTEM) then None
       else get_active_system_loan ls borrower).
Proof.
  intros Hnone. split_and!.
  - destruct (select_owed_to ls borrower lender) as [|[j y] rows] eqn:E; [done|].
    exfalso. apply (Hnone j y).
    + apply (select_owed_to_spec ls borrower lender). rewrite E. by left.
    + assert ((j, y) ∈ select_owed_to ls borrower lender) as Hin
        by (rewrite E; by left).
      unfold select_owed_to, order_by_borrowed_at_asc in Hin.
      rewrite elem_of_stable_sort, list_elem_of_filter in Hin.
      destruct Hin as [(? & ? & ?) _]. by split_and!.
  - destruct (get_active_loans_between_users ls lender borrower)
      as [|[j y] rows] eqn:E; [done|].
    exfalso.
    assert ((j, y) ∈ get_active_loans_between_users ls lender borrower) as Hin
      by (rewrite E; by left).
    unfold get_active_loans_between_users, order_by_borrowed_at_desc in Hin.
    rewrite elem_of_stable_sort, list_elem_of_filter, elem_of_table_rows in Hin.
    destruct Hin as [(? & ? & ?) ?]. apply (Hnone j y); [done|].
    split_and!; auto.
  - destruct (decide (lender = SYSTEM)) as [->|]; [|done].
    destruct (get_active_system_loan ls borrower) as [[j y]|] eqn:E; [|done].
    exfalso. unfold get_active_system_loan in E.
    apply head_Some_elem_of in E.
    unfold order_by_borrowed_at_desc in E.
    rewrite elem_of_stable_sort, list_elem_of_filter, elem_of_table_rows in E.
    destruct E as [(? & ? & ?) ?]. apply (Hnone j y); [done|].
    split_and!; auto.
Qed.


(** X14: a successful [repay_loan] applies the smaller of the amount offered
    and what the borrower owes the lender on active and overdue loans.  When
    the amount offered exceeds that debt, every one of these loans is written
    as paid with the whole of its debt repaid, all of them are reported as
    paid off, the reply quotes no remaining debt, and no loan is owed to the
    lender afterwards. *)
Theorem repay_loan_applies_min db b l a total po rem db' :
  repay_loan db b l a = (Ok (Repaid total po rem), db') →
  total = Z.min a (total_remaining (select_owed_to (loans db) b l))
  ∧ (total_remaining (select_owed_to (loans db) b l) < a →
     po = (select_owed_to (loans db) b l).*1
     ∧ rem = None
     ∧ select_owed_to (loans db') b l = []
     ∧ ∀ i x, (i, x) ∈ select_owed_to (loans db) b l →
         loans db' !! i
         = Some (Loan.set_repayment
                   (repaid_amount x + Loan.remaining_amount x) paid x)).
Proof.
  unfold repay_loan.
  destruct (a <=? 0) eqn:Ha; [discriminate|].
  destruct (users db !! b) as [bu|] eqn:Hb; [|discriminate].
  destruct (coins bu <? a) eqn:Hcoins; [discriminate|].
  case_bool_decide; [discriminate|].
  pose proof (repay_loop_sum (select_owed_to (loans db) b l) (loans db) 0 [] a
                ltac:(lia)) as Hsum.
  pose proof (repay_loop_clears (select_owed_to (loans db) b l) (loans db) 0 [] a)
    as Hclear.
  destruct (repay_loop _ _ _ _ _) as [[[ls' tot'] po'] rem'] eqn:Heq.
  simpl in Hsum. intros [= <- <- <- <-]. split; [lia|].
  intros Hover.
  destruct Hclear as (ls'' & [= <- _ -> _] & Hrows & Hframe); [done|..].
  { apply fetched_sort, fetched_filter, fetched_table_rows. }
  assert (∀ j y, ls' !! j = Some y → ¬ owed_between l b y) as Hnone.
  { intros j y Hy (Hlender & Hborrower & Hst).
    destruct (decide (j ∈ (select_owed_to (loans db) b l).*1)) as [Hin|Hout].
    - apply list_elem_of_fmap in Hin as ([j' x] & -> & Hin). cbn [fst] in Hy.
      rewrite (Hrows _ _ Hin) in Hy. injection Hy as <-.
      simpl in Hst. destruct Hst; discriminate.
    - apply Hout. apply list_elem_of_fmap. exists (j, y). split; [done|].
      apply select_owed_to_spec. rewrite <- Hframe by done.
      split; [done|]. by split_and!. }
  destruct (no_owed_between ls' l b Hnone) as (Hsel & Hact & Hsys).
  cbn [loans]. split_and!; [done| |done|done].
  case_bool_decide as Hl.
  - rewrite Hsys, decide_True by done. done.
  - by rewrite Hact.
Qed.

Lemma repay_loan_applies_min_witness :
  105 = Z.min 200 (total_remaining (select_owed_to (loans db_orphan_funded) "bob" "carol"))
  ∧ (total_remaining (select_owed_to (loans db_orphan_funded) "bob" "carol") < 200 →
     [1] = (select_owed_to (loans db_orphan_funded) "bob" "carol").*1
     ∧ @None Z = None
     ∧ select_owed_to (loans (repay_loan db_orphan_funded "bob" "carol" 200).2)
         "bob" "carol" = []
     ∧ ∀ i x, (i, x) ∈ select_owed_to (loans db_orphan_funded) "bob" "carol" →
         loans (repay_loan db_orphan_funded "bob" "carol" 200).2 !! i
         = Some (Loan.set_repayment
                   (repaid_amount x + Loan.remaining_amount x) paid x)).
Proof.
  apply (repay_loan_applies_min db_orphan_funded "bob" "carol" 200 105 [1] None).
  vm_compute. reflexivity.
Defined.


Lemma allocate_length funds rows : length (allocate funds rows) = length rows.
Proof.
  revert funds. induction rows as [|r rows IH]; intros funds; [done|].
  cbn [allocate length]. by rewrite IH.
Qed.

Lemma elem_of_select_owed ls b i x :
  (i, x) ∈ select_owed ls b ↔ ls !! i = Some x ∧ owed_by b x.
Proof.
  unfold select_owed, owed_by.
  rewrite list_elem_of_filter, elem_of_table_rows. simpl. tauto.
Qed.

Lemma settle_full l :
  Loan.remaining_amount (settle (Loan.remaining_amount l) l) = 0.
Proof.
  unfold settle. destruct (0 <? Loan.remaining_amount l) eqn:E.
  - unfold Loan.remaining_amount. simpl. lia.
  - pose proof (total_remaining_nonneg [(0, l)]) as Hl.
    rewrite total_remaining_cons in Hl. change (total_remaining []) with 0 in Hl.
    simpl in Hl. lia.
Qed.

(** X15: a successful [repay_all_loans] applies the smaller of the
    borrower's balance and the whole of the borrower's debt on active and
    overdue loans, and reports the rest of the balance; when the balance
    covers the debt, nothing remains owed on any active or overdue loan of
    the borrower afterwards. *)
Theorem repay_all_loans_applies_min db b total remaining details db' :
  repay_all_loans db b = (Ok (RepaidAll total remaining details), db') →
  ∃ bu,
    users db !! b = Some bu ∧ 0 < coins bu
    ∧ total = Z.min (coins bu) (total_remaining (select_owed (loans db) b))
    ∧ remaining = coins bu - total
    ∧ (total_remaining (select_owed (loans db) b) ≤ coins bu →
       total_remaining (select_owed (loans db') b) = 0).
Proof.
  unfold repay_all_loans.
  destruct (users db !! b) as [bu|] eqn:Hb; [|discriminate].
  destruct (coins bu <=? 0) eqn:Hpos; [discriminate|].
  case_bool_decide; [discriminate|].
  set (rows := sort_for_repay_all (select_owed (loans db) b)).
  assert (total_remaining rows = total_remaining (select_owed (loans db) b))
    as Hperm by apply total_remaining_perm, stable_sort_perm.
  destruct (repay_all_loop_spec rows (users db) (loans db) 0 (coins bu) [])
    as (us' & ls' & det' & Heq & Hk & Hframe); [lia| |].
  { apply fetched_sort, fetched_filter, fetched_table_rows. }
  rewrite Heq, allocate_sum, Hperm by lia.
  intros [= <- <- <- <-]. exists bu. split_and!; [done|lia|lia|lia|].
  intros Hcover. cbn [loans]. apply total_remaining_zero, Forall_forall.
  intros [j y] [Hy Howed]%elem_of_select_owed. cbn [snd].
  destruct (decide (j ∈ rows.*1)) as [Hin|Hout].
  - apply list_elem_of_fmap in Hin as ([j' x] & -> & Hin). cbn [fst] in Hy.
    apply list_elem_of_lookup_1 in Hin as [k Hrow].
    destruct (lookup_lt_is_Some_2 (allocate (coins bu) rows) k) as [a Ha].
    { rewrite allocate_length. by eapply lookup_lt_Some. }
    rewrite (Hk _ _ _ _ Hrow Ha) in Hy. injection Hy as <-.
    assert (total_remaining rows ≤ coins bu) as Hcover' by lia.
    rewrite (allocate_full _ _ _ _ _ Hcover' Hrow Ha). apply settle_full.
  - exfalso. apply Hout. apply list_elem_of_fmap. exists (j, y). split; [done|].
    apply elem_of_stable_sort, elem_of_select_owed.
    rewrite <- Hframe by done. done.
Qed.

Lemma repay_all_loans_applies_min_witness :
  ∃ bu,
    users db_settlement !! "bob" = Some bu ∧ 0 < coins bu
    ∧ 500 = Z.min (coins bu) (total_remaining (select_owed (loans db_settlement) "bob"))
    ∧ 0 = coins bu - 500
    ∧ (total_remaining (select_owed (loans db_settlement) "bob") ≤ coins bu →
       total_remaining
         (select_owed (loans (repay_all_loans db_settlement "bob").2) "bob") = 0).
Proof.
  apply (repay_all_loans_applies_min db_settlement "bob" 500 0
           [(1, SYSTEM, 300); (2, "alice", 200)]).
  vm_compute. reflexivity.
Defined.

(** X16: a successful [force_collect] takes the amount asked for, or the
    whole debt on the active loans between the pair when no amount is given
    or the amount is larger, cut down to the borrower's balance; an amount
    given is positive, what is taken is positive, and the reply names the
    shortfall exactly when the balance did not cover what was asked. *)
Theorem force_collect_amount db l b amount total po rem short db' :
  force_collect db l b amount = (Ok (Collected total po rem short), db') →
  ∃ bu wanted,
    users db !! b = Some bu
    ∧ wanted
      = match amount with
        | None => total_remaining (get_active_loans_between_users (loans db) l b)
        | Some a =>
            Z.min a (total_remaining (get_active_loans_between_users (loans db) l b))
        end
    ∧ match amount with Some a => 0 < a | None => True end
    ∧ total = Z.min wanted (coins bu)
    ∧ 0 < total
    ∧ short = (if total <? wanted then Some (total, wanted) else None).
Proof.
  unfold force_collect, SqliteUserRepository.get_by_id.
  case_bool_decide; [discriminate|].
  fold (total_remaining (get_active_loans_between_users (loans db) l b)).
  set (debt := total_remaining (get_active_loans_between_users (loans db) l b)).
  destruct (match amount with Some _ => _ | None => _ end) as [amt|] eqn:Hamt;
    [|discriminate].
  destruct (users db !! b) as [bu|] eqn:Hb; [|discriminate].
  destruct (_ <=? 0) eqn:Hact; [discriminate|].
  pose proof (collect_loop_sum
                (collect_order (get_active_loans_between_users (loans db) l b))
                (loans db) 0 [] (Z.min amt (coins bu)) ltac:(lia)) as Hsum.
  rewrite (total_remaining_perm (collect_order _)
             (get_active_loans_between_users (loans db) l b)) in Hsum
    by apply stable_sort_perm.
  fold debt in Hsum.
  destruct (collect_loop _ _ _ _ _) as [[[ls' tot'] po'] rem'] eqn:Heq.
  simpl in Hsum.
  destruct (_update_coins (users db) b (- tot')) as [us1 ok1].
  destruct (negb ok1); [discriminate|].
  destruct (_update_coins us1 l tot') as [us2 ok2].
  destruct (negb ok2); [discriminate|].
  intros [= <- <- <- <- <-]. exists bu, amt.
  assert (amt ≤ debt ∧ match amount with Some a => 0 < a | None => True end
          ∧ amt = match amount with None => debt | Some a => Z.min a debt end)
    as (Hle & Hpos & Hamt').
  { destruct amount as [a|]; [|injection Hamt as <-; split_and!; [lia|done..]].
    destruct (a <=? 0) eqn:Ha; [discriminate|]. injection Hamt as <-.
    split_and!; lia. }
  assert (tot' = Z.min amt (coins bu)) as -> by lia.
  split_and!; [done|done|done|done|lia|done].
Qed.

Lemma force_collect_amount_witness :
  ∃ bu wanted,
    users db_shortfall !! "bob" = Some bu
    ∧ wanted
      = Z.min 2000
          (total_remaining
             (get_active_loans_between_users (loans db_shortfall) "alice" "bob"))
    ∧ 0 < 2000
    ∧ 150 = Z.min wanted (coins bu)
    ∧ 0 < 150
    ∧ Some (150, 1000) = (if 150 <? wanted then Some (150, wanted) else None).
Proof.
  apply (force_collect_amount db_shortfall "alice" "bob" (Some 2000) 150 []
           (Some 850) (Some (150, 1000))
           (force_collect db_shortfall "alice" "bob" (Some 2000)).2).
  vm_compute. reflexivity.
Defined.


(** *** Borrowing from the system *)




(** [borrow_from_system] fails and changes nothing, or stores the new loan
    under the next key. *)
Lemma borrow_from_system_loans self now db b a :
  (failed (borrow_from_system self now db b a).1
   ∧ (borrow_from_system self now db b a).2 = db)
  ∨ ∃ amt due,
      0 < amt
      ∧ (borrow_from_system self now db b a).1
        = Ok (Borrowed (lastrowid (loans db)) amt due
                (now + system_loan_days self * seconds_per_day))
      ∧ get_active_system_loan (loans db) b = None
      ∧ is_Some (users (borrow_from_system self now db b a).2 !! b)
      ∧ loans (borrow_from_system self now db b a).2
        = <[lastrowid (loans db) :=
              mkLoan SYSTEM b amt (default_interest_rate self) now due 0 active
                     (Some (now + system_loan_days self * seconds_per_day))]>
            (loans db).
Proof.
  unfold borrow_from_system, SqliteLoanRepository.create_loan,
    SqliteUserRepository.get_by_id.
  destruct (users db !! b) as [bu|] eqn:Hb; [|by left].
  destruct (get_active_system_loan (loans db) b) as [r|] eqn:Hact; [by left|].
  destruct (has_overdue_system_loan now (loans db) b); [by left|].
  destruct (max_borrow_amount self bu) as [quota|]; [|by left].
  destruct (quota <=? 0) eqn:Hq; [by left|].
  destruct (match a with Some _ => _ | None => _ end) as [amt|e] eqn:Hamt;
    [|by left].
  destruct (due_amount_for amt _) as [due|]; [|by left].
  rewrite update_coins_spec, Hb. cbn [negb fst snd loans users].
  right. exists amt, due. split_and!; try done.
  - destruct a as [x|]; [|injection Hamt as <-; lia].
    destruct (x <=? 0) eqn:Hx; [discriminate|].
    destruct (quota <? x); [discriminate|]. injection Hamt as <-. lia.
  - rewrite lookup_insert_eq. by eexists.
Qed.




(** *** The readers *)

Lemma is_overdue_true now l :
  Loan.is_overdue now l = true
  ↔ lender_id l = SYSTEM ∧ status l ≠ paid ∧ past_due now l.
Proof.
  unfold Loan.is_overdue, past_due.
  case_bool_decide as Hl.
  { split; [discriminate|]. by intros (? & _). }
  destruct (due_date l) as [d|].
  - case_bool_decide as Hst.
    + split; [discriminate|]. by intros (_ & ? & _).
    + rewrite Z.ltb_lt. tauto.
  - split; [discriminate|]. by intros (_ & _ & ?).
Qed.

Lemma to_mark_true now l :
  to_mark now l = true
  ↔ lender_id l = SYSTEM ∧ status l = active ∧ past_due now l.
Proof.
  unfold to_mark. rewrite andb_true_iff, is_overdue_true, bool_decide_eq_true.
  split; [tauto|]. intros (? & Hst & ?). rewrite Hst. by split_and!.
Qed.

Lemma marked_lender now l : lender_id (marked now l) = lender_id l.
Proof. unfold marked. by destruct (to_mark now l). Qed.

Lemma marked_borrower now l : borrower_id (marked now l) = borrower_id l.
Proof. unfold marked. by destruct (to_mark now l). Qed.

Lemma marked_borrowed_at now l : borrowed_at (marked now l) = borrowed_at l.
Proof. unfold marked. by destruct (to_mark now l). Qed.

Lemma marked_past_due now t l : past_due t (marked now l) ↔ past_due t l.
Proof. unfold marked, past_due. by destruct (to_mark now l). Qed.

Lemma marked_remaining now l :
  Loan.remaining_amount (marked now l) = Loan.remaining_amount l.
Proof. unfold marked. by destruct (to_mark now l). Qed.

Lemma marked_owed now l :
  (status (marked now l) = active ∨ status (marked now l) = overdue)
  ↔ (status l = active ∨ status l = overdue).
Proof.
  unfold marked. destruct (to_mark now l) eqn:E; [|done].
  apply to_mark_true in E as (_ & -> & _). simpl. tauto.
Qed.

Lemma marked_is_overdue now l :
  Loan.is_overdue now (marked now l) = Loan.is_overdue now l.
Proof.
  unfold marked. destruct (to_mark now l) eqn:E; [|done].
  apply to_mark_true in E as (Hl & Hst & Hpast).
  transitivity true; [|symmetry]; apply is_overdue_true; simpl;
    rewrite ?Hst; by split_and!.
Qed.

Lemma marked_idemp now l : marked now (marked now l) = marked now l.
Proof.
  unfold marked. destruct (to_mark now l) eqn:E; [|by rewrite E].
  unfold to_mark at 1. cbn [Loan.set_repayment status].
  by rewrite (bool_decide_eq_false_2 (overdue = active)), andb_false_r.
Qed.

(** What [mark_overdue] returns and writes. *)
Lemma mark_overdue_spec now rows ls :
  fetched_from ls rows →
  (mark_overdue now rows ls).2 = prod_map id (marked now) <$> rows
  ∧ (∀ i l, (i, l) ∈ rows →
       (mark_overdue now rows ls).1 !! i = Some (marked now l))
  ∧ (∀ i, i ∉ rows.*1 → (mark_overdue now rows ls).1 !! i = ls !! i).
Proof.
  revert ls. induction rows as [|[i l] rows IH]; intros ls [Hnd Hcur].
  { simpl. split_and!; [done| |done]. intros ? ? Hin. by apply elem_of_nil in Hin. }
  rewrite fmap_cons in Hnd. apply NoDup_cons in Hnd as [Hi Hnd].
  assert (ls !! i = Some l) as Hl by (apply Hcur; by left).
  set (ls1 := if to_mark now l
              then (update_loan_repayment ls i (repaid_amount l) overdue).1
              else ls).
  assert (ls1 !! i = Some (marked now l)) as Hi1.
  { unfold ls1, marked, update_loan_repayment.
    destruct (to_mark now l); [|done]. cbn [fst].
    by rewrite lookup_alter_eq, Hl. }
  assert (∀ j, j ≠ i → ls1 !! j = ls !! j) as Hother.
  { intros j Hj. unfold ls1, update_loan_repayment.
    destruct (to_mark now l); [|done]. cbn [fst]. by rewrite lookup_alter_ne. }
  assert (fetched_from ls1 rows) as Hf1.
  { split; [done|]. intros j x Hjx. rewrite Hother; [apply Hcur; by right|].
    intros ->. apply Hi. apply list_elem_of_fmap. by exists (i, x). }
  destruct (IH ls1 Hf1) as (Hrows & Hin & Hframe).
  assert (mark_overdue now ((i, l) :: rows) ls
          = ((mark_overdue now rows ls1).1,
             (i, marked now l) :: (mark_overdue now rows ls1).2)) as ->.
  { cbn [mark_overdue]. fold (to_mark now l). unfold ls1, marked.
    destruct (to_mark now l);
      by destruct (mark_overdue now rows _) as [ls2 rest]. }
  cbn [fst snd]. split_and!.
  - by rewrite Hrows.
  - intros j x [[= -> ->]|Hjx]%elem_of_cons; [|by apply Hin].
    by rewrite Hframe.
  - intros j Hj. rewrite fmap_cons in Hj. apply not_elem_of_cons in Hj as [? ?].
    rewrite Hframe by done. by apply Hother.
Qed.

(** A pass of [mark_overdue] over the stored loans that satisfy [P]. *)
Lemma mark_overdue_where now (P : Loan → Prop) `{!∀ l, Decision (P l)} rows ls :
  fetched_from ls rows →
  (∀ i l, (i, l) ∈ rows ↔ ls !! i = Some l ∧ P l) →
  (mark_overdue now rows ls).1 = mark_where now P ls.
Proof.
  intros Hf Hrows. destruct (mark_overdue_spec now rows ls Hf) as (_ & Hin & Hframe).
  apply map_eq. intros i. unfold mark_where. rewrite lookup_fmap.
  destruct (ls !! i) as [l|] eqn:Hl; simpl.
  - destruct (decide (P l)) as [HP|HP].
    + apply Hin, Hrows. done.
    + rewrite Hframe, Hl; [done|].
      intros ([j x] & -> & Hjx)%list_elem_of_fmap.
      apply Hrows in Hjx as [Hx ?]. simpl in Hl. congruence.
  - rewrite Hframe, Hl; [done|].
    intros ([j x] & -> & Hjx)%list_elem_of_fmap.
    apply Hrows in Hjx as [Hx ?]. simpl in Hl. congruence.
Qed.

Lemma insert_sorted_by_key (g : Loan → Loan) (r : Row) (rows : list Row) :
  insert_sorted (λ a b : Row, a.1 <=? b.1) (prod_map id g r) (prod_map id g <$> rows)
  = prod_map id g <$> insert_sorted (λ a b : Row, a.1 <=? b.1) r rows.
Proof.
  induction rows as [|r' rows IH]; [done|].
  rewrite fmap_cons. cbn [insert_sorted]. destruct r as [i l], r' as [j x].
  cbn [prod_map fst id] in *. destruct (i <=? j); [done|].
  rewrite fmap_cons. f_equal. exact IH.
Qed.

Lemma table_rows_fmap (g : Loan → Loan) (ls : gmap Z Loan) :
  table_rows (g <$> ls) = prod_map id g <$> table_rows ls.
Proof.
  unfold table_rows. rewrite map_to_list_fmap.
  induction (map_to_list ls) as [|r rows IH]; [done|].
  rewrite fmap_cons. cbn [stable_sort foldr].
  fold (stable_sort (λ a b : Row, a.1 <=? b.1) (prod_map id g <$> rows)).
  fold (stable_sort (λ a b : Row, a.1 <=? b.1) rows).
  rewrite IH. apply insert_sorted_by_key.
Qed.

Lemma filter_rows_fmap (g : Loan → Loan) (P : Row → Prop)
    `{!∀ r, Decision (P r)} (rows : list Row) :
  (∀ r, P (prod_map id g r) ↔ P r) →
  filter P (prod_map id g <$> rows) = prod_map id g <$> filter P rows.
Proof.
  intros HP. induction rows as [|r rows IH]; [done|].
  rewrite fmap_cons. destruct (decide (P r)) as [Hr|Hr].
  - rewrite (filter_cons_True P r) by done.
    rewrite filter_cons_True by (by apply HP). by rewrite fmap_cons, IH.
  - rewrite (filter_cons_False P r) by done.
    rewrite filter_cons_False by (by rewrite HP). exact IH.
Qed.

Lemma total_remaining_fmap (g : Loan → Loan) (rows : list Row) :
  (∀ l, Loan.remaining_amount (g l) = Loan.remaining_amount l) →
  total_remaining (prod_map id g <$> rows) = total_remaining rows.
Proof.
  intros Hg. induction rows as [|r rows IH]; [done|].
  rewrite fmap_cons, !total_remaining_cons, IH. destruct r as [i l]. simpl.
  by rewrite Hg.
Qed.

Lemma total_remaining_sort (leb : Row → Row → bool) (rows : list Row) :
  total_remaining (stable_sort leb rows) = total_remaining rows.
Proof. apply total_remaining_perm, stable_sort_perm. Qed.

Lemma filter_sort_perm (P : Row → Prop) `{!∀ r, Decision (P r)}
    (leb : Row → Row → bool) (rows : list Row) :
  filter P (stable_sort leb rows) ≡ₚ filter P rows.
Proof. by rewrite stable_sort_perm. Qed.


Lemma overdue_system_rows_mark now (P : Loan → Prop) `{!∀ l, Decision (P l)} ls u :
  overdue_system_rows now (mark_where now P ls) u
  = prod_map id (λ l, if decide (P l) then marked now l else l)
      <$> overdue_system_rows now ls u.
Proof.
  unfold overdue_system_rows, mark_where. rewrite table_rows_fmap.
  apply (filter_rows_fmap _ (λ r : Row, lender_id r.2 = SYSTEM ∧ borrower_id r.2 = u
                                        ∧ (status r.2 = active ∨ status r.2 = overdue)
                                        ∧ past_due now r.2)).
  intros [i l]. cbn [prod_map snd id]. destruct (decide (P l)); [|done].
  by rewrite marked_lender, marked_borrower, marked_owed, marked_past_due.
Qed.

Lemma mark_where_idemp now (P : Loan → Prop) `{!∀ l, Decision (P l)} ls :
  mark_where now P (mark_where now P ls) = mark_where now P ls.
Proof.
  unfold mark_where. rewrite <- map_fmap_compose.
  apply map_fmap_ext. intros i l _. simpl.
  destruct (decide (P l)) as [Hl|Hl].
  - destruct (decide (P (marked now l))); [apply marked_idemp|done].
  - by rewrite decide_False.
Qed.

Lemma outstanding_system_loan_marked now u l :
  outstanding_system_loan u (marked now l) ↔ outstanding_system_loan u l.
Proof.
  unfold outstanding_system_loan.
  by rewrite marked_lender, marked_borrower, marked_owed.
Qed.

(** What [check_user_overdue_status] returns and writes. *)
Lemma check_user_overdue_status_spec now db u :
  check_user_overdue_status now db u
  = ((has_overdue_system_loan now (loans db) u,
      total_remaining (overdue_system_rows now (loans db) u)),
     mkDB (users db) (mark_where now (outstanding_system_loan u) (loans db))).
Proof.
  unfold check_user_overdue_status.
  set (system_loans := filter _ (get_loans_by_borrower (loans db) u None)).
  assert (fetched_from (loans db) system_loans) as Hf
    by apply fetched_filter, fetched_get_loans_by_borrower.
  assert (∀ i l, (i, l) ∈ system_loans
                 ↔ loans db !! i = Some l ∧ outstanding_system_loan u l) as Hin.
  { intros i l. unfold system_loans, get_loans_by_borrower,
      order_by_borrowed_at_desc, outstanding_system_loan.
    rewrite !list_elem_of_filter, elem_of_stable_sort, list_elem_of_filter,
      elem_of_table_rows. simpl. tauto. }
  pose proof (mark_overdue_where now (outstanding_system_loan u)
                system_loans (loans db) Hf Hin) as Htable.
  destruct (mark_overdue_spec now system_loans (loans db) Hf) as (Hrows & _ & _).
  destruct (mark_overdue now system_loans (loans db)) as [ls' mk].
  cbn [fst snd] in Htable, Hrows. subst ls' mk.
  rewrite (filter_rows_fmap (marked now)
             (λ r : Row, Loan.is_overdue now r.2 = true))
    by (intros [i l]; cbn [prod_map snd id]; by rewrite marked_is_overdue).
  assert (filter (λ r : Row, Loan.is_overdue now r.2 = true) system_loans
          ≡ₚ overdue_system_rows now (loans db) u) as Hperm.
  { unfold system_loans, get_loans_by_borrower, order_by_borrowed_at_desc,
      overdue_system_rows.
    rewrite list_filter_filter, filter_sort_perm, list_filter_filter.
    erewrite list_filter_iff; [reflexivity|].
    intros [i l]. cbn [snd]. rewrite is_overdue_true. split.
    - intros [[(_ & _ & Hp) [Hl Ho]] [Hb _]]. by split_and!.
    - intros (Hl & Hb & Hst & Hp). split_and!; try done.
      intros Hpaid. rewrite Hpaid in Hst. by destruct Hst. }
  f_equal.
  unfold has_overdue_system_loan. fold (overdue_system_rows now (loans db) u).
  fold (total_remaining
          (prod_map id (marked now)
             <$> filter (λ r : Row, Loan.is_overdue now r.2 = true) system_loans)).
  rewrite (total_remaining_fmap _ _ (marked_remaining now)).
  rewrite (total_remaining_perm _ _ Hperm).
  pose proof (Permutation_length Hperm) as Hlen.
  destruct (filter (λ r : Row, Loan.is_overdue now r.2 = true) system_loans)
    as [|r rows];
    destruct (overdue_system_rows now (loans db) u) as [|r' rows'];
    try discriminate Hlen.
  - done.
  - rewrite fmap_cons, (bool_decide_eq_false_2 (_ :: _ = [])) by done.
    rewrite bool_decide_eq_true_2; [done|]. simpl. lia.
Qed.

(** X19: [check_user_overdue_status] restricts a user exactly when
    [has_overdue_system_loan] holds of that user at the time of the call, and
    the debt it quotes is what remains on the user's unsettled system loans
    that are past due; a user it restricts cannot borrow from the system at
    that time, whatever amount is asked for. *)
Theorem overdue_status_agrees_with_lock self now db u :
  (check_user_overdue_status now db u).1.1
  = has_overdue_system_loan now (loans db) u
  ∧ (check_user_overdue_status now db u).1.2
    = total_remaining (overdue_system_rows now (loans db) u)
  ∧ ((check_user_overdue_status now db u).1.1 = true →
     ∀ a, failed (borrow_from_system self now db u a).1
          ∧ (borrow_from_system self now db u a).2 = db).
Proof.
  rewrite check_user_overdue_status_spec. cbn [fst snd].
  split_and!; [done|done|].
  intros Hover a. unfold borrow_from_system. rewrite Hover.
  destruct (SqliteUserRepository.get_by_id _ _); [|done].
  by destruct (get_active_system_loan _ _).
Qed.

Lemma overdue_status_agrees_with_lock_witness :
  failed (borrow_from_system default_service (8 * day) db_overdue "bob" (Some 10)).1
  ∧ (borrow_from_system default_service (8 * day) db_overdue "bob" (Some 10)).2
    = db_overdue.
Proof.
  apply (proj2 (proj2 (overdue_status_agrees_with_lock
                         default_service (8 * day) db_overdue "bob"))).
  vm_compute. reflexivity.
Defined.

(** X20: [check_user_overdue_status] writes the status ['overdue'] to the
    user's active system loans that are past due and to nothing else, and
    leaves the accounts; asked again at the same time it gives the same
    answer and changes nothing further. *)
Theorem check_user_overdue_status_idempotent now db u :
  users (check_user_overdue_status now db u).2 = users db
  ∧ loans (check_user_overdue_status now db u).2
    = mark_where now (outstanding_system_loan u) (loans db)
  ∧ check_user_overdue_status now (check_user_overdue_status now db u).2 u
    = ((check_user_overdue_status now db u).1,
       (check_user_overdue_status now db u).2).
Proof.
  rewrite !check_user_overdue_status_spec. cbn [fst snd users loans].
  split_and!; [done|done|].
  rewrite mark_where_idemp.
  rewrite overdue_system_rows_mark.
  rewrite (total_remaining_fmap _ _) by
    (intros l; destruct (decide _); [apply marked_remaining|done]).
  do 2 f_equal. unfold has_overdue_system_loan.
  fold (overdue_system_rows now
          (mark_where now (outstanding_system_loan u) (loans db)) u).
  fold (overdue_system_rows now (loans db) u).
  by rewrite overdue_system_rows_mark, length_fmap.
Qed.


Lemma active_loan_of_rows ls u i l :
  (i, l) ∈ get_loans_by_borrower ls u (Some active)
  ↔ ls !! i = Some l ∧ active_loan_of u l.
Proof.
  unfold get_loans_by_borrower, order_by_borrowed_at_desc, active_loan_of.
  rewrite elem_of_stable_sort, list_elem_of_filter, elem_of_table_rows.
  simpl. tauto.
Qed.

Lemma select_owed_mark now (P : Loan → Prop) `{!∀ l, Decision (P l)} ls u :
  select_owed (mark_where now P ls) u
  = prod_map id (λ l, if decide (P l) then marked now l else l)
      <$> select_owed ls u.
Proof.
  unfold select_owed, mark_where. rewrite table_rows_fmap.
  apply (filter_rows_fmap _ (λ r : Row, borrower_id r.2 = u
                                        ∧ (status r.2 = active ∨ status r.2 = overdue))).
  intros [i l]. cbn [prod_map snd id]. destruct (decide (P l)); [|done].
  by rewrite marked_borrower, marked_owed.
Qed.

(** What [get_total_debt] returns and writes. *)
Lemma get_total_debt_spec now db u :
  get_total_debt now db u
  = (total_remaining (select_owed (loans db) u),
     mkDB (users db) (mark_where now (active_loan_of u) (loans db))).
Proof.
  unfold get_total_debt.
  rewrite (mark_overdue_where now (active_loan_of u) _ (loans db)
             (fetched_get_loans_by_borrower _ _ _) (active_loan_of_rows _ _)).
  f_equal.
  fold (total_remaining
          (filter (λ r : Row, status r.2 = active ∨ status r.2 = overdue)
             (get_loans_by_borrower
                (mark_where now (active_loan_of u) (loans db)) u None))).
  unfold get_loans_by_borrower, order_by_borrowed_at_desc.
  rewrite (total_remaining_perm _ _ (filter_sort_perm _ _ _)).
  rewrite list_filter_filter.
  rewrite (list_filter_iff _ (λ r : Row, borrower_id r.2 = u
                                        ∧ (status r.2 = active ∨ status r.2 = overdue)))
    by (intros [i l]; simpl; tauto).
  fold (select_owed (mark_where now (active_loan_of u) (loans db)) u).
  rewrite select_owed_mark. apply total_remaining_fmap.
  intros l. destruct (decide _); [apply marked_remaining|done].
Qed.

Lemma total_remaining_filter_mono (P Q : Row → Prop)
    `{!∀ r, Decision (P r), !∀ r, Decision (Q r)} (rows : list Row) :
  (∀ r, P r → Q r) →
  total_remaining (filter P rows) ≤ total_remaining (filter Q rows).
Proof.
  intros HPQ. induction rows as [|r rows IH]; [done|].
  pose proof (total_remaining_nonneg [r]) as Hr.
  rewrite total_remaining_cons in Hr. change (total_remaining []) with 0 in Hr.
  destruct (decide (P r)) as [HP|HP].
  - rewrite !filter_cons_True by auto. rewrite !total_remaining_cons. lia.
  - rewrite (filter_cons_False P) by done.
    destruct (decide (Q r)).
    + rewrite filter_cons_True by done. rewrite total_remaining_cons. lia.
    + by rewrite filter_cons_False.
Qed.

(** X21: [get_total_debt] reports what remains on the user's active and
    overdue loans as stored, the same at whatever time it is asked, which is
    the debt that [repay_all_loans] works on; it writes the status
    ['overdue'] to the user's active loans that are overdue and nothing
    else, and a second call reports the same and writes nothing more. *)
Theorem get_total_debt_reports_owed now db u :
  (get_total_debt now db u).1 = total_remaining (select_owed (loans db) u)
  ∧ (∀ now', (get_total_debt now' db u).1 = (get_total_debt now db u).1)
  ∧ users (get_total_debt now db u).2 = users db
  ∧ loans (get_total_debt now db u).2
    = mark_where now (active_loan_of u) (loans db)
  ∧ get_total_debt now (get_total_debt now db u).2 u = get_total_debt now db u.
Proof.
  rewrite (get_total_debt_spec now db u). cbn [fst snd users loans].
  split_and!; try done.
  - intros now'. by rewrite get_total_debt_spec.
  - rewrite get_total_debt_spec. cbn [users loans].
    rewrite select_owed_mark, mark_where_idemp.
    f_equal. apply total_remaining_fmap.
    intros l. destruct (decide _); [apply marked_remaining|done].
Qed.


Lemma filter_iff_in (P Q : Row → Prop)
    `{!∀ r, Decision (P r), !∀ r, Decision (Q r)} (rows : list Row) :
  (∀ r, r ∈ rows → P r ↔ Q r) → filter P rows = filter Q rows.
Proof.
  induction rows as [|r rows IH]; intros HPQ; [done|].
  assert (filter P rows = filter Q rows) as IH'.
  { apply IH. intros r' ?. apply HPQ. by right. }
  assert (P r ↔ Q r) as Hr by (apply HPQ; by left).
  destruct (decide (P r)) as [HP|HP].
  - rewrite !filter_cons_True by tauto. by rewrite IH'.
  - rewrite !filter_cons_False by tauto. exact IH'.
Qed.

(** X22: the summary of a user counts loans of status ['active'] only, so
    the amount it shows as payable never exceeds the total debt reported by
    [get_total_debt], and equals it when none of the user's loans is stored
    as overdue; what it shows as receivable is not negative. *)
Theorem summary_payable_within_debt now db u :
  0 ≤ total_receivable (get_user_loans_summary db u)
  ∧ 0 ≤ total_payable (get_user_loans_summary db u)
  ∧ total_payable (get_user_loans_summary db u) ≤ (get_total_debt now db u).1
  ∧ ((∀ i l, loans db !! i = Some l → borrower_id l = u → status l ≠ overdue) →
     total_payable (get_user_loans_summary db u) = (get_total_debt now db u).1).
Proof.
  rewrite get_total_debt_spec. unfold get_user_loans_summary.
  cbn [total_receivable total_payable fst].
  fold (total_remaining (get_loans_by_lender (loans db) u (Some active))).
  fold (total_remaining (get_loans_by_borrower (loans db) u (Some active))).
  split_and!; [apply total_remaining_nonneg..| |].
  - unfold get_loans_by_borrower, order_by_borrowed_at_desc, select_owed.
    rewrite total_remaining_sort. apply total_remaining_filter_mono.
    intros [i l]. simpl. tauto.
  - intros Hnone.
    unfold get_loans_by_borrower, order_by_borrowed_at_desc, select_owed.
    rewrite total_remaining_sort. f_equal. apply filter_iff_in.
    intros [i l] Hin%elem_of_table_rows. simpl. split; [tauto|].
    intros [Hb [?|Hst]]; [done|]. by destruct (Hnone i l).
Qed.

Lemma summary_payable_within_debt_witness :
  total_payable (get_user_loans_summary db_abc "bob")
  = (get_total_debt 0 db_abc "bob").1.
Proof.
  apply (proj2 (proj2 (proj2 (summary_payable_within_debt 0 db_abc "bob")))).
  intros i l Hl _ Hst.
  destruct (decide (i = 1)) as [->|]; [by vm_compute in Hl; simplify_eq|].
  destruct (decide (i = 2)) as [->|]; [by vm_compute in Hl; simplify_eq|].
  destruct (decide (i = 3)) as [->|]; [by vm_compute in Hl; simplify_eq|].
  unfold db_abc in Hl. cbn [loans] in Hl.
  by rewrite !lookup_insert_ne, lookup_empty in Hl.
Defined.

Lemma elem_of_unique_loans rows seen r :
  r ∈ unique_loans rows seen → r ∈ rows.
Proof.
  revert seen. induction rows as [|r' rows IH]; intros seen; simpl; [done|].
  case_bool_decide.
  - intros ?. right. by eapply IH.
  - intros [->|?]%elem_of_cons; [by left|]. right. by eapply IH.
Qed.

(** X23: [get_all_loans_list] shows at most 20 loans, none twice, the
    newest [borrowed_at] first, and leaves the accounts.  Every loan shown
    was stored as active before the call, is stored after the call exactly
    as shown (written as overdue if it was overdue), and, in the listing
    for a user, has the user as lender or as borrower. *)
Theorem get_all_loans_list_shown now db u :
  (length (get_all_loans_list now db u).1 ≤ 20)%nat
  ∧ NoDup (get_all_loans_list now db u).1.*1
  ∧ StronglySorted newest_first (get_all_loans_list now db u).1
  ∧ users (get_all_loans_list now db u).2 = users db
  ∧ ∀ i l, (i, l) ∈ (get_all_loans_list now db u).1 →
      loans (get_all_loans_list now db u).2 !! i = Some l
      ∧ ∃ l0, loans db !! i = Some l0 ∧ status l0 = active ∧ l = marked now l0
              ∧ match u with
                | Some x => x = "" ∨ lender_id l0 = x ∨ borrower_id l0 = x
                | None => True
                end.
Proof.
  unfold get_all_loans_list.
  match goal with |- context [mark_overdue now (take 20 ?rows) _] =>
    set (found := rows) end.
  assert (StronglySorted newest_first found
          ∧ ∀ i l0, (i, l0) ∈ found →
              status l0 = active
              ∧ match u with
                | Some x => x = "" ∨ lender_id l0 = x ∨ borrower_id l0 = x
                | None => True
                end) as [Hsorted Hparty].
  { assert (∀ i l0, (i, l0) ∈ get_all_active_loans (loans db) → status l0 = active)
      as Hactive.
    { intros i l0. unfold get_all_active_loans, order_by_borrowed_at_desc.
      rewrite elem_of_stable_sort, list_elem_of_filter. by intros [? _]. }
    unfold found. destruct u as [x|].
    - case_bool_decide as Hx.
      + split; [apply newest_first_sorted|]. intros i l0 Hin. eauto.
      + split; [apply (newest_first_sorted _)|].
        intros i l0 Hin%elem_of_stable_sort%elem_of_unique_loans.
        apply elem_of_app in Hin as [Hin|Hin].
        * unfold get_loans_by_lender, order_by_borrowed_at_desc in Hin.
          rewrite elem_of_stable_sort, list_elem_of_filter in Hin.
          destruct Hin as [[? ?] _]. simpl in *. auto.
        * apply active_loan_of_rows in Hin as [_ [? ?]]. auto.
    - split; [apply newest_first_sorted|]. intros i l0 Hin. eauto. }
  assert (fetched_from (loans db) found) as Hf.
  { unfold found. destruct u as [x|]; [|apply fetched_get_all_active_loans].
    case_bool_decide; [apply fetched_get_all_active_loans|].
    apply fetched_sort.
    refine (proj1 (fetched_unique_loans _ _ _ _)).
    intros i l [Hin|Hin]%elem_of_app.
    - by apply (fetched_get_loans_by_lender (loans db) x (Some active)).
    - by apply (fetched_get_loans_by_borrower (loans db) x (Some active)). }
  pose proof (fetched_take 20 _ _ Hf) as Hf20.
  destruct (mark_overdue_spec now (take 20 found) (loans db) Hf20)
    as (Hrows & Hin & _).
  destruct (mark_overdue now (take 20 found) (loans db)) as [ls' shown].
  cbn [fst snd users loans] in *. subst shown. split_and!.
  - rewrite length_fmap, length_take. lia.
  - rewrite <- list_fmap_compose.
    rewrite (list_fmap_ext (fst ∘ prod_map id (marked now)) fst (take 20 found))
      by (by intros ? []).
    apply Hf20.
  - apply (StronglySorted_fmap _ newest_first).
    + intros [i x] [j y]. unfold newest_first. simpl.
      by rewrite !marked_borrowed_at.
    + rewrite <- (take_drop 20 found) in Hsorted.
      by apply StronglySorted_app_1_l in Hsorted.
  - done.
  - intros i l ([j l0] & [= -> ->] & Hl0)%list_elem_of_fmap.
    split; [by apply Hin|]. exists l0.
    assert ((j, l0) ∈ found) as Hfound
      by (eapply elem_of_sublist; [exact Hl0|apply sublist_take]).
    destruct (Hparty _ _ Hfound) as [? ?].
    split_and!; [by apply Hf|done..].
Qed.

(** X24: the repository's [get_overdue_loans] lists exactly the stored loans
    on which the readers' test succeeds ([is_overdue] and status ['active']);
    the borrower of each is locked by [has_overdue_system_loan]; and once
    [check_user_overdue_status] has run for a user at that time, none of the
    user's loans is listed. *)
Theorem get_overdue_loans_awaiting_mark now db :
  (∀ i l, (i, l) ∈ get_overdue_loans now (loans db)
          ↔ loans db !! i = Some l ∧ to_mark now l = true)
  ∧ (∀ i l, (i, l) ∈ get_overdue_loans now (loans db) →
            has_overdue_system_loan now (loans db) (borrower_id l) = true)
  ∧ (∀ u i l,
       (i, l) ∈ get_overdue_loans now (loans (check_user_overdue_status now db u).2) →
       borrower_id l ≠ u).
Proof.
  assert (∀ ls i l, (i, l) ∈ get_overdue_loans now ls
                    ↔ ls !! i = Some l ∧ to_mark now l = true) as Hspec.
  { intros ls i l. unfold get_overdue_loans.
    rewrite list_elem_of_filter, elem_of_table_rows, to_mark_true. simpl. tauto. }
  split_and!.
  - apply Hspec.
  - intros i l [Hl (Hlender & Hst & Hpast)%to_mark_true]%Hspec.
    destruct (has_overdue_system_loan now (loans db) (borrower_id l)) eqn:E;
      [done|].
    destruct (has_overdue_system_loan_false _ _ _ _ _ E Hl); [|done].
    split_and!; auto.
  - intros u i l [Hl Hmark]%Hspec Hu.
    rewrite check_user_overdue_status_spec in Hl. cbn [snd loans] in Hl.
    unfold mark_where in Hl. rewrite lookup_fmap in Hl.
    destruct (loans db !! i) as [l0|]; [|done]. simpl in Hl.
    destruct (decide (outstanding_system_loan u l0)) as [Ho|Ho].
    + injection Hl as <-. rewrite <- marked_idemp in Hmark.
      unfold marked at 1 in Hmark.
      destruct (to_mark now (marked now l0)) eqn:E; [|congruence].
      unfold to_mark in Hmark. cbn [Loan.set_repayment status] in Hmark.
      by rewrite (bool_decide_eq_false_2 (overdue = active)), andb_false_r
        in Hmark.
    + injection Hl as <-. apply Ho.
      apply to_mark_true in Hmark as (? & ? & ?). split_and!; auto.
Qed.


(** *** Balances are never negative *)

Lemma nonneg_alter (f : User → User) x us :
  (∀ u, 0 ≤ coins u → 0 ≤ coins (f u)) →
  nonneg_balances us → nonneg_balances (alter f x us).
Proof.
  intros Hf Hus y row. destruct (decide (x = y)) as [<-|].
  - rewrite lookup_alter_eq. destruct (us !! x) as [u|] eqn:Hu; [|done].
    intros [= <-]. apply Hf. by apply (Hus x).
  - rewrite lookup_alter_ne by done. apply Hus.
Qed.

Lemma nonneg_debit a x us : nonneg_balances us → nonneg_balances (sql_debit a x us).
Proof. apply nonneg_alter. intros u _. simpl. lia. Qed.

Lemma nonneg_credit a x us :
  0 ≤ a → nonneg_balances us → nonneg_balances (sql_credit a x us).
Proof. intros Ha. apply nonneg_alter. intros u ?. simpl. lia. Qed.

Lemma nonneg_raise_max_coins x us :
  nonneg_balances us → nonneg_balances (sql_raise_max_coins x us).
Proof. apply nonneg_alter. intros u ?. by destruct (max_coins u <? coins u). Qed.

Lemma nonneg_set_coins a x us :
  0 ≤ a → nonneg_balances us → nonneg_balances (sql_set_coins a x us).
Proof. intros Ha. apply nonneg_alter. intros u _. done. Qed.

Lemma nonneg_update_coins us x a :
  nonneg_balances us → nonneg_balances (_update_coins us x a).1.
Proof.
  intros Hus. rewrite update_coins_spec.
  destruct (us !! x) as [u|]; [|done]. cbn [fst].
  intros y row. destruct (decide (x = y)) as [<-|].
  - rewrite lookup_insert_eq. intros [= <-]. simpl. lia.
  - rewrite lookup_insert_ne by done. apply Hus.
Qed.

Lemma nonneg_transfer p lender borrower us :
  0 ≤ p → nonneg_balances us →
  nonneg_balances
    (sql_raise_max_coins borrower (sql_credit p borrower (sql_debit p lender us))).
Proof.
  intros Hp Hus. by apply nonneg_raise_max_coins, nonneg_credit, nonneg_debit.
Qed.

Lemma repay_all_loop_nonneg rows us ls tot rem det :
  nonneg_balances us → 0 ≤ rem →
  nonneg_balances (repay_all_loop rows us ls tot rem det).1.1.1.1
  ∧ 0 ≤ (repay_all_loop rows us ls tot rem det).1.2.
Proof.
  revert us ls tot rem det.
  induction rows as [|[i l] rows IH]; intros us ls tot rem det Hus Hrem;
    cbn [repay_all_loop]; [done|].
  destruct (rem <=? 0); [done|].
  destruct (Z.min rem (Loan.remaining_amount l) <=? 0) eqn:Ha; [by apply IH|].
  apply IH; [|lia].
  destruct (negb (Loan.is_system_loan l)); [|done].
  apply nonneg_raise_max_coins, nonneg_credit; [lia|done].
Qed.

(** No call overdraws an account. *)
Lemma run_nonneg self now c db :
  nonneg_balances (users db) → positive_principals (loans db) →
  nonneg_balances (users (run self now c db)).
Proof.
  intros Hus Hls. destruct c as [l b p r|i u|b|b l a|l b a|b a|u|u|u]; cbn [run].
  - unfold create_loan, SqliteLoanRepository.create_loan.
    destruct (bool_decide (l = b)); [done|].
    destruct (p <=? 0) eqn:Hp; [done|].
    destruct (due_amount_for _ _); [|done].
    destruct (bool_decide (l ≠ SYSTEM)); [done|].
    destruct (users db !! l) as [row|]; [|done].
    destruct (coins row <? p); [done|].
    destruct (users db !! b); [|done].
    cbn [snd users]. apply nonneg_transfer; [lia|done].
  - unfold confirm_loan, get_loan_by_id.
    destruct (loans db !! i) as [loan|] eqn:Hi; [|done].
    destruct (bool_decide (borrower_id loan ≠ u)); [done|].
    destruct (bool_decide (status loan ≠ pending)); [done|].
    destruct (users db !! lender_id loan) as [row|]; [|done].
    destruct (coins row <? principal loan); [done|].
    cbn [snd users]. apply nonneg_transfer; [|done].
    specialize (Hls i loan Hi). lia.
  - unfold repay_all_loans.
    destruct (users db !! b) as [row|]; [|done].
    destruct (coins row <=? 0) eqn:Hrow; [done|].
    destruct (bool_decide (select_owed (loans db) b = [])); [done|].
    destruct (repay_all_loop_nonneg
                (sort_for_repay_all (select_owed (loans db) b))
                (users db) (loans db) 0 (coins row) [] Hus ltac:(lia))
      as [Hus' Hrem].
    destruct (repay_all_loop _ _ _ _ _ _) as [[[[us' ls'] tot'] rem'] det'].
    cbn [fst snd users] in *. by apply nonneg_set_coins.
  - unfold repay_loan.
    destruct (a <=? 0) eqn:Ha; [done|].
    destruct (users db !! b) as [row|]; [|done].
    destruct (coins row <? a); [done|].
    destruct (bool_decide (select_owed_to (loans db) b l = [])); [done|].
    pose proof (repay_loop_sum (select_owed_to (loans db) b l) (loans db) 0 [] a
                  ltac:(lia)) as Hsum.
    pose proof (total_remaining_nonneg (select_owed_to (loans db) b l)).
    destruct (repay_loop _ _ _ _ _) as [[[ls' tot'] po'] rem'].
    cbn [fst snd users] in *.
    destruct (bool_decide (l ≠ SYSTEM)).
    + apply nonneg_raise_max_coins, nonneg_credit, nonneg_debit; [lia|done].
    + by apply nonneg_debit.
  - unfold force_collect, SqliteUserRepository.get_by_id.
    destruct (bool_decide (_ = [])); [done|].
    destruct (match a with Some _ => _ | None => _ end); [|done].
    destruct (users db !! b); [|done].
    destruct (_ <=? 0); [done|].
    destruct (collect_loop _ _ _ _ _) as [[[ls' tot'] po'] rem'].
    pose proof (nonneg_update_coins (users db) b (- tot') Hus) as Hus1.
    destruct (_update_coins (users db) b (- tot')) as [us1 ok1].
    cbn [fst] in Hus1. destruct (negb ok1); [done|].
    pose proof (nonneg_update_coins us1 l tot' Hus1) as Hus2.
    destruct (_update_coins us1 l tot') as [us2 ok2].
    cbn [fst] in Hus2. destruct (negb ok2); [|done].
    cbn [snd users]. by apply nonneg_update_coins.
  - unfold borrow_from_system, SqliteLoanRepository.create_loan,
      SqliteUserRepository.get_by_id.
    destruct (users db !! b) as [bu|]; [|done].
    destruct (get_active_system_loan _ _); [done|].
    destruct (has_overdue_system_loan _ _ _); [done|].
    destruct (max_borrow_amount _ _) as [quota|]; [|done].
    destruct (quota <=? 0); [done|].
    destruct (match a with Some _ => _ | None => _ end) as [amt|e]; [|done].
    destruct (due_amount_for _ _); [|done].
    pose proof (nonneg_update_coins (users db) b amt Hus) as Hus1.
    destruct (_update_coins (users db) b amt) as [us1 ok].
    by destruct (negb ok).
  - unfold get_all_loans_list. by destruct (mark_overdue _ _ _).
  - by rewrite check_user_overdue_status_spec.
  - by rewrite get_total_debt_spec.
Qed.

(** No call stores or leaves a loan without a positive principal. *)
Lemma run_principals self now c db :
  positive_principals (loans db) →
  positive_principals (loans (run self now c db)).
Proof.
  intros Hls.
  assert (∀ ls', table_updated (loan_evolves now) (loans db) ls' →
                 positive_principals ls') as Hupd.
  { intros ls' [Hev Hkeys] i x Hx.
    destruct (loans db !! i) as [l|] eqn:Hl.
    - destruct (Hev i l Hl) as (l' & Hl' & Hevl). destruct Hevl.
      assert (x = l') as -> by congruence.
      specialize (Hls i l Hl). lia.
    - rewrite (Hkeys i Hl) in Hx. discriminate. }
  destruct c as [l b p r|i u|b|b l a|l b a|b a|u|u|u];
    try (apply Hupd, (run_updated self now); exact I).
  - cbn [run]. unfold create_loan, SqliteLoanRepository.create_loan.
    destruct (bool_decide (l = b)); [done|].
    destruct (p <=? 0) eqn:Hp; [done|].
    destruct (due_amount_for _ _); [|done].
    assert (∀ x, principal x = p →
                 positive_principals (<[lastrowid (loans db) := x]> (loans db)))
      as Hins.
    { intros x Hx i y [[_ <-]|[_ Hy]]%lookup_insert_Some; [lia|by eapply Hls]. }
    destruct (bool_decide (l ≠ SYSTEM)); [by apply Hins|].
    destruct (users db !! l) as [row|]; [|done].
    destruct (coins row <? p); [done|].
    destruct (users db !! b); [|done].
    by apply Hins.
  - cbn [run].
    destruct (borrow_from_system_loans self now db b a)
      as [[_ ->]|(amt & due & Hamt & _ & _ & _ & ->)]; [done|].
    intros i y [[_ <-]|[_ Hy]]%lookup_insert_Some; [done|by eapply Hls].
Qed.

(** X25: starting from tables in which no balance is negative and every
    loan has a positive principal, no sequence of calls of the service, made
    at whatever times and with whatever arguments, makes a balance negative
    or stores a loan without a positive principal. *)
Theorem balances_never_negative self w w' :
  steps self any_call w w' →
  nonneg_balances (users (tables w)) ∧ positive_principals (loans (tables w)) →
  nonneg_balances (users (tables w')) ∧ positive_principals (loans (tables w')).
Proof.
  induction 1 as [w|w w1 w' Hstep _ IH]; [done|].
  intros [Hus Hls]. apply IH. destruct Hstep as [w now c _ _]. cbn [tables].
  split; [by apply run_nonneg|by apply run_principals].
Qed.

Lemma balances_never_negative_witness :
  nonneg_balances
    (users (run default_service 9 (ForceCollect "carol" "bob" None) db_orphan))
  ∧ positive_principals
      (loans (run default_service 9 (ForceCollect "carol" "bob" None) db_orphan)).
Proof.
  apply (balances_never_negative default_service (mkWorld db_orphan 0)
           (mkWorld (run default_service 9 (ForceCollect "carol" "bob" None)
                       db_orphan) 9)).
  - apply rtc_once.
    apply (step_call default_service any_call (mkWorld db_orphan 0) 9
             (ForceCollect "carol" "bob" None)); [exact I|simpl; lia].
  - split.
    + unfold db_orphan. cbn [tables users].
      intros u row [[_ <-]|[_ Hu]]%lookup_insert_Some; [simpl; lia|].
      by rewrite lookup_empty in Hu.
    + unfold db_orphan. cbn [tables loans].
      intros i l [[_ <-]|[_ Hl]]%lookup_insert_Some; [simpl; lia|].
      by rewrite lookup_empty in Hl.
Defined.


(** *** Stored loans stay consistent *)

Local Instance keeps_well_formed_refl : Reflexive keeps_well_formed.
Proof. intros l Hl. exact Hl. Qed.















(** *** The life of a stored loan *)

Lemma loan_evolves_lifecycle now l l' :
  loan_evolves now l l' →
  (status l = paid → status l' = paid)
  ∧ (due_date l = None → status l ≠ overdue → status l' ≠ overdue)
  ∧ (status l ≠ pending → status l' ≠ pending).
Proof.
  intros [_ _ _ _ _ _ _ _ Hstep]. unfold status_step, past_due in Hstep.
  split_and!.
  - intros Hp. rewrite Hp in Hstep.
    destruct Hstep as [?|[[? _]|[[[?|?] _]|[[? _]|[? _]]]]]; done.
  - intros Hd Hs Hs'. rewrite Hd in Hstep.
    destruct Hstep as [?|[[_ ?]|[[_ ?]|[[_ ?]|(_ & _ & _ & [])]]]]; congruence.
  - intros Hs Hs'.
    destruct Hstep as [?|[[? _]|[[_ ?]|[[_ ?]|(_ & ? & _)]]]]; congruence.
Qed.

(** X27: through any sequence of calls a stored loan stays stored, a paid
    loan stays paid, a loan that is not pending never becomes pending, the
    due date is never rewritten, and a loan without a due date never becomes
    overdue, however long it is owed. *)
Theorem status_lifecycle self w w' i l :
  steps self any_call w w' →
  loans (tables w) !! i = Some l →
  ∃ l', loans (tables w') !! i = Some l'
        ∧ due_date l' = due_date l
        ∧ (status l = paid → status l' = paid)
        ∧ (due_date l = None → status l ≠ overdue → status l' ≠ overdue)
        ∧ (status l ≠ pending → status l' ≠ pending).
Proof.
  intros Hsteps. revert l.
  induction Hsteps as [w|w w1 w' Hstep _ IH]; intros l Hl.
  { exists l. by split_and!. }
  destruct Hstep as [w now c _ _].
  destruct (run_evolves self now c (tables w) i l Hl) as (l1 & Hl1 & Hev).
  destruct (IH l1 Hl1) as (l' & Hl' & Hdate & Hpaid & Hover & Hpend).
  destruct (loan_evolves_lifecycle _ _ _ Hev) as (Hpaid1 & Hover1 & Hpend1).
  destruct Hev. exists l'. split_and!; [done|congruence|auto|auto|auto].
  intros Hd Hs. apply Hover; [congruence|auto].
Qed.

Lemma status_lifecycle_witness :
  ∃ l', loans (tables (mkWorld (run default_service (30 * day)
                                  (CheckUserOverdueStatus "bob") db_abc)
                               (30 * day))) !! 2 = Some l'
        ∧ due_date l' = due_date loan_B
        ∧ (status loan_B = paid → status l' = paid)
        ∧ (due_date loan_B = None → status loan_B ≠ overdue → status l' ≠ overdue)
        ∧ (status loan_B ≠ pending → status l' ≠ pending).
Proof.
  apply (status_lifecycle default_service (mkWorld db_abc 0)
           (mkWorld (run default_service (30 * day)
                       (CheckUserOverdueStatus "bob") db_abc) (30 * day)) 2 loan_B).
  - apply rtc_once.
    apply (step_call default_service any_call (mkWorld db_abc 0) (30 * day)
             (CheckUserOverdueStatus "bob")); [exact I|vm_compute; discriminate].
  - vm_compute. reflexivity.
Defined.

End extras.
